(** * Thor kernel core: capability table, async ids, IPC channels,
      interrupt entry and the Hel system-call dispatcher.

    A shallow embedding of the kernel sources together with the
    properties stated about them.  The sources are the kernel header
    with the class declarations (src/unnamed/part_000, called kernel.hpp
    below), the kernel core with [allocAsyncId], [SubmitInfo] and the
    [Universe] methods (src/unnamed/part_001, called core.cpp below) and
    src/thor/src/main.cpp with [thorIrq] and [thorSyscall].

    Fixed-width C++ integers are integers of [Z] with their wrap-around
    written out; the descriptor hash map is a finite map.  Code that the
    sources only declare or call is modelled from the specification, and
    says so. *)

From Stdlib Require Import ZArith NArith List String Lia.
From stdpp Require Import base option list gmap.

Local Open Scope Z_scope.

(* ===================================================================== *)
(** * Part I: definitions                                                 *)
(* ===================================================================== *)

(** ** Machine integers *)

Module Machine.

(** [uint64_t] / [Word] / [Handle]: values live in [0, 2^64). *)
Definition modulus64 : Z := 2 ^ 64.

(** Reduction of a mathematical integer to an unsigned 64-bit value. *)
Definition wrapU64 (x : Z) : Z := x mod modulus64.

(** [int64_t]: values live in [-2^63, 2^63). *)
Definition minS64 : Z := - 2 ^ 63.
Definition maxS64 : Z := 2 ^ 63 - 1.

(** Reduction of a mathematical integer to a two's complement 64-bit
    value. *)
Definition wrapS64 (x : Z) : Z := (x + 2 ^ 63) mod modulus64 - 2 ^ 63.

End Machine.

(** ** Async ids (core.cpp) *)

Module AsyncId.
Import Machine.

(** [static int64_t nextAsyncId = 1;] *)
Definition nextAsyncId : Z := 1.

(** Modelled from the spec: [frigg::fetchInc] is not among the sources.
    It is the atomic fetch-and-increment its name and its use say
    (the spec calls the ids "issued by alloc_async_id ... strictly
    increasing"): the old value of the cell is handed out through the
    reference argument and the cell holds the old value plus one, as a
    64-bit two's complement integer.  The pair is (new cell, old value). *)
Definition fetchInc (cell : Z) : Z * Z := (wrapS64 (cell + 1), cell).

(** [int64_t allocAsyncId()]: the state is the global counter; the
    result is (counter afterwards, returned id). *)
Definition allocAsyncId (counter : Z) : Z * Z :=
  let '(counter', async_id) := fetchInc counter in
  (counter', async_id).

(** The counter after [n] calls since boot. *)
Definition counterAfter (n : N) : Z :=
  N.iter n (fun c => fst (allocAsyncId c)) nextAsyncId.

(** The id returned by call number [n] since boot, counting from 0. *)
Definition issued (n : N) : Z := snd (allocAsyncId (counterAfter n)).

(** [SubmitInfo] (core.cpp). *)
Record SubmitInfo := mkSubmitInfo {
  asyncId : Z;
  submitFunction : Z;
  submitObject : Z
}.

(** [SubmitInfo::SubmitInfo()] *)
Definition SubmitInfo_default : SubmitInfo := mkSubmitInfo 0 0 0.

(** [SubmitInfo::SubmitInfo(async_id, submit_function, submit_object)] *)
Definition SubmitInfo_make (async_id submit_function submit_object : Z)
  : SubmitInfo := mkSubmitInfo async_id submit_function submit_object.

End AsyncId.

(** ** Descriptors and the capability table (kernel.hpp, core.cpp) *)

Module Thor.
Import Machine.

(** [typedef uint64_t Handle;] *)
Definition Handle : Type := Z.

(** Shared objects are named by the identity of the object a
    [SharedPtr] points to. *)
Definition ObjectId : Type := N.

(** [AnyDescriptor::Type] *)
Inductive DescriptorType :=
| kTypeMemoryAccess
| kTypeBiDirectionFirst
| kTypeBiDirectionSecond.

(** [AnyDescriptor]: the discriminant with the payload of its union;
    each payload is the shared pointer the descriptor class holds
    ([p_memory], [p_pipe]). *)
Inductive AnyDescriptor :=
| MemoryAccessDescriptor (p_memory : ObjectId)
| BiDirectionFirstDescriptor (p_pipe : ObjectId)
| BiDirectionSecondDescriptor (p_pipe : ObjectId).

Definition getType (d : AnyDescriptor) : DescriptorType :=
  match d with
  | MemoryAccessDescriptor _ => kTypeMemoryAccess
  | BiDirectionFirstDescriptor _ => kTypeBiDirectionFirst
  | BiDirectionSecondDescriptor _ => kTypeBiDirectionSecond
  end.

(** [class Universe]: the descriptor map and the handle counter.  The
    map is a [frigg::Hashmap<Handle, AnyDescriptor>], held here as a
    finite map: [insert] adds an entry, [get] finds it or returns null,
    [remove] takes it out and returns it or nothing. *)
Record Universe := mkUniverse {
  _descriptorMap : gmap Z AnyDescriptor;
  _nextHandle : Handle
}.

(** [Universe::Universe()]: empty map, [_nextHandle(1)]. *)
Definition Universe_new : Universe := mkUniverse ∅ 1.

(** [Universe::attachDescriptor]:
    [Handle handle = _nextHandle++; _descriptorMap.insert(handle, ...);
     return handle;] *)
Definition attachDescriptor (u : Universe) (descriptor : AnyDescriptor)
  : Universe * Handle :=
  let handle := _nextHandle u in
  (mkUniverse (<[handle := descriptor]> (_descriptorMap u))
              (wrapU64 (_nextHandle u + 1)),
   handle).

(** [Universe::getDescriptor]: [return _descriptorMap.get(handle);]
    (a null pointer when there is no entry). *)
Definition getDescriptor (u : Universe) (handle : Handle)
  : option AnyDescriptor :=
  _descriptorMap u !! handle.

(** [Universe::detachDescriptor]: [return _descriptorMap.remove(handle);]
    (an empty [Optional] when there is no entry). *)
Definition detachDescriptor (u : Universe) (handle : Handle)
  : Universe * option AnyDescriptor :=
  (mkUniverse (delete handle (_descriptorMap u)) (_nextHandle u),
   _descriptorMap u !! handle).

(** A call made on a universe, and what the caller saw of it. *)
Inductive Call :=
| CallAttach (descriptor : AnyDescriptor)
| CallDetach (handle : Handle).

Inductive Event :=
| Attached (handle : Handle) (descriptor : AnyDescriptor)
| Detached (handle : Handle).

Definition step (st : Universe * list Event) (c : Call)
  : Universe * list Event :=
  match c with
  | CallAttach d =>
      let '(u', h) := attachDescriptor (fst st) d in
      (u', snd st ++ [Attached h d])
  | CallDetach h =>
      (fst (detachDescriptor (fst st) h), snd st ++ [Detached h])
  end.

(** Run a sequence of calls; the events are in call order. *)
Definition runFrom (u : Universe) (calls : list Call)
  : Universe * list Event :=
  fold_left step calls (u, []).

Definition run (calls : list Call) : Universe * list Event :=
  runFrom Universe_new calls.

Definition isAttach (c : Call) : bool :=
  match c with CallAttach _ => true | CallDetach _ => false end.

(** Number of [attachDescriptor] calls in a sequence. *)
Definition attaches (calls : list Call) : Z :=
  Z.of_nat (length (filter (fun c => isAttach c = true) calls)).

(** The handles [attachDescriptor] returned, in order. *)
Fixpoint returnedHandles (evs : list Event) : list Handle :=
  match evs with
  | [] => []
  | Attached h _ :: evs' => h :: returnedHandles evs'
  | Detached _ :: evs' => returnedHandles evs'
  end.

(** [h] is live with descriptor [d]: it was attached with [d] and has
    not been detached since. *)
Definition live (evs : list Event) (h : Handle) (d : AnyDescriptor)
  : Prop :=
  ∃ before after,
    evs = before ++ Attached h d :: after ∧ Detached h ∉ after.

(** What is said of a sequence of calls made on a fresh universe:
    - each attach leaves the counter strictly greater than it found it,
      and a detach leaves it alone;
    - no returned handle is the null handle 0;
    - no handle is returned twice;
    - a lookup finds [d] under [h] exactly when [h] is live with [d]. *)
Definition handlesWellIssued (calls : list Call) : Prop :=
  (∀ before c after, calls = before ++ c :: after →
     match c with
     | CallAttach _ =>
         _nextHandle (fst (run before))
         < _nextHandle (fst (run (before ++ [c])))
     | CallDetach _ =>
         _nextHandle (fst (run (before ++ [c])))
         = _nextHandle (fst (run before))
     end) ∧
  (∀ h, h ∈ returnedHandles (snd (run calls)) → h ≠ 0) ∧
  NoDup (returnedHandles (snd (run calls))) ∧
  (∀ h d, getDescriptor (fst (run calls)) h = Some d
          ↔ live (snd (run calls)) h d).

End Thor.

(** ** IPC channels and pipes (kernel.hpp; behaviour from the spec) *)

Module Ipc.
Import AsyncId Thor.

(** Modelled from the spec: the source's [enum Error] has the single
    enumerator [kErrSuccess = 0]; the other error words are those of the
    spec's error taxonomy (section 6), in its order. *)
Inductive Error :=
| kErrSuccess
| IllegalSyscall
| IllegalHandle
| NoSuchObject
| NoMemory
| BufferTooSmall
| BadDescriptor
| Timeout
| Dismissed
| Fault.

(** Modelled from the spec: the wildcard of a receive filter; the pipe
    echo scenario passes -1 for both filters. *)
Definition kHelAny : Z := -1.

(** Modelled from the spec: the message record of [send].  The source's
    [Channel::Message] holds the kernel-owned copy of the payload
    ([p_buffer], [p_length]); the spec's record carries [msg_request] and
    [msg_seq] as well.  The length is that of the payload. *)
Record Message := mkMessage {
  p_buffer : list Byte.byte;
  p_msgRequest : Z;
  p_msgSeq : Z
}.

(** [Message::getLength] *)
Definition getLength (m : Message) : nat := length (p_buffer m).

(** Modelled from the spec: the receive record of [submit_recv]: the
    event hub to notify, the user buffer pointer and its size, the
    filter, and the submit-info. *)
Record RecvRequest := mkRecvRequest {
  r_hub : ObjectId;
  r_buffer : Z;
  r_length : nat;
  r_filterRequest : Z;
  r_filterSeq : Z;
  r_submitInfo : SubmitInfo
}.

(** Modelled from the spec: the event delivered to user space (section 6,
    event layout), without its type tag. *)
Record HelEvent := mkHelEvent {
  e_error : Error;
  e_asyncId : Z;
  e_submitFunction : Z;
  e_submitObject : Z;
  e_length : nat;
  e_msgRequest : Z;
  e_msgSeq : Z;
  e_handle : Handle
}.

(** Modelled from the spec: what matching a message with a receive does:
    an event is posted to the receiver's hub and bytes are copied to the
    receiver's user buffer. *)
Record Completion := mkCompletion {
  c_hub : ObjectId;
  c_event : HelEvent;
  c_buffer : Z;
  c_bytes : list Byte.byte
}.

(** Modelled from the spec: a channel "holds two FIFOs", the pending
    messages ([p_messages] in the source's [class Channel]) and the
    pending receives, which the source's class does not have. *)
Record Channel := mkChannel {
  p_messages : list Message;
  p_receives : list RecvRequest
}.

(** [Channel::Channel()] *)
Definition Channel_new : Channel := mkChannel [] [].

(** Modelled from the spec: the matching rule.  A send record matches a
    receive filter when both filter values are either wildcard or equal. *)
Definition matches (m : Message) (r : RecvRequest) : bool :=
  ((r_filterRequest r =? kHelAny) || (r_filterRequest r =? p_msgRequest m))
  && ((r_filterSeq r =? kHelAny) || (r_filterSeq r =? p_msgSeq m)).

(** Modelled from the spec: completing receive [r] with message [m]: the
    payload is copied to the receiver's buffer and an event with status
    OK, the length and the message's tags is posted.  The spec names
    [BufferTooSmall] without saying when it arises; here it is the status
    of a receive whose buffer cannot hold the payload, and nothing is
    copied then. *)
Definition complete (m : Message) (r : RecvRequest) : Completion :=
  let info := r_submitInfo r in
  if (getLength m <=? r_length r)%nat then
    mkCompletion (r_hub r)
      (mkHelEvent kErrSuccess (asyncId info) (submitFunction info)
         (submitObject info) (getLength m) (p_msgRequest m) (p_msgSeq m) 0)
      (r_buffer r) (p_buffer m)
  else
    mkCompletion (r_hub r)
      (mkHelEvent BufferTooSmall (asyncId info) (submitFunction info)
         (submitObject info) 0 0 0 0)
      (r_buffer r) [].

(** The first element of a FIFO that satisfies [p], and the FIFO without
    it ("the one with the smallest enqueue index wins"). *)
Fixpoint takeFirst {A} (p : A → bool) (l : list A) : option (A * list A) :=
  match l with
  | [] => None
  | x :: l' =>
      if p x then Some (x, l')
      else match takeFirst p l' with
           | Some (y, rest) => Some (y, x :: rest)
           | None => None
           end
  end.

(** Modelled from the spec: [Channel::sendString] with the spec's tags.
    The payload is the first [length] bytes of the sender's buffer.  If a
    waiting receive matches, it is completed and dropped; otherwise the
    message is enqueued on the pending messages. *)
Definition sendString (ch : Channel) (buffer : list Byte.byte)
    (length : nat) (msg_request msg_seq : Z)
  : Channel * option (Message * RecvRequest) :=
  let m := mkMessage (firstn length buffer) msg_request msg_seq in
  match takeFirst (matches m) (p_receives ch) with
  | Some (r, rest) => (mkChannel (p_messages ch) rest, Some (m, r))
  | None => (mkChannel (p_messages ch ++ [m]) (p_receives ch), None)
  end.

(** Modelled from the spec: [submit_recv] on a channel.  If a pending
    message matches, the receive is completed with it at once; otherwise
    the receive record is enqueued. *)
Definition submitRecvString (ch : Channel) (r : RecvRequest)
  : Channel * option (Message * RecvRequest) :=
  match takeFirst (fun m => matches m r) (p_messages ch) with
  | Some (m, rest) => (mkChannel rest (p_receives ch), Some (m, r))
  | None => (mkChannel (p_messages ch) (p_receives ch ++ [r]), None)
  end.

(** What the receiver is handed when a match is made. *)
Definition completionOf (mr : Message * RecvRequest) : Completion :=
  complete (fst mr) (snd mr).

(** Operations on one channel and the matches they make, in order. *)
Inductive ChannelOp :=
| OpSend (buffer : list Byte.byte) (length : nat) (msg_request msg_seq : Z)
| OpSubmitRecv (r : RecvRequest).

Definition logMatch (log : list (Message * RecvRequest))
    (made : option (Message * RecvRequest))
  : list (Message * RecvRequest) :=
  match made with
  | Some mr => log ++ [mr]
  | None => log
  end.

Definition channelStep (st : Channel * list (Message * RecvRequest))
    (op : ChannelOp) : Channel * list (Message * RecvRequest) :=
  match op with
  | OpSend buffer length msg_request msg_seq =>
      let '(ch, made) :=
        sendString (fst st) buffer length msg_request msg_seq in
      (ch, logMatch (snd st) made)
  | OpSubmitRecv r =>
      let '(ch, made) := submitRecvString (fst st) r in
      (ch, logMatch (snd st) made)
  end.

Definition runChannel (ops : list ChannelOp)
  : Channel * list (Message * RecvRequest) :=
  fold_left channelStep ops (Channel_new, []).

(** The completions the receivers observed, in order. *)
Definition completions (ops : list ChannelOp) : list Completion :=
  map completionOf (snd (runChannel ops)).

(** The messages sent, in send order. *)
Fixpoint sent (ops : list ChannelOp) : list Message :=
  match ops with
  | [] => []
  | OpSend buffer length msg_request msg_seq :: ops' =>
      mkMessage (firstn length buffer) msg_request msg_seq :: sent ops'
  | OpSubmitRecv _ :: ops' => sent ops'
  end.

(** The receives submitted, in submission order. *)
Fixpoint submitted (ops : list ChannelOp) : list RecvRequest :=
  match ops with
  | [] => []
  | OpSend _ _ _ _ :: ops' => submitted ops'
  | OpSubmitRecv r :: ops' => r :: submitted ops'
  end.

(** The tags of an interleaving match: every receive's filter accepts
    every message sent. *)
Definition tagsMatch (ops : list ChannelOp) : Prop :=
  ∀ m r, m ∈ sent ops → r ∈ submitted ops → matches m r = true.

(** The same, as a test that runs. *)
Definition tagsMatchb (ops : list ChannelOp) : bool :=
  forallb (fun m => forallb (matches m) (submitted ops)) (sent ops).

(** The spec's pipe echo scenario: a receive of up to 5 bytes with both
    filters wildcard and async id 7, and the payload "hello". *)
Definition helloRecv : RecvRequest :=
  mkRecvRequest 1%N 4096 5 kHelAny kHelAny (SubmitInfo_make 7 0 0).

Definition hello : list Byte.byte :=
  [Byte.x68; Byte.x65; Byte.x6c; Byte.x6c; Byte.x6f].

(** [class BiDirectionPipe]: two channels held inline. *)
Record BiDirectionPipe := mkBiDirectionPipe {
  p_firstChannel : Channel;
  p_secondChannel : Channel
}.

(** [BiDirectionPipe::BiDirectionPipe()] *)
Definition BiDirectionPipe_new : BiDirectionPipe :=
  mkBiDirectionPipe Channel_new Channel_new.

Definition getFirstChannel (pipe : BiDirectionPipe) : Channel :=
  p_firstChannel pipe.

Definition getSecondChannel (pipe : BiDirectionPipe) : Channel :=
  p_secondChannel pipe.

(** Modelled from the spec: the bodies of the descriptor methods are not
    among the sources; the header says of [BiDirectionFirstDescriptor]
    "Reads from the first channel, writes to the second" and of
    [BiDirectionSecondDescriptor] "Reads from the second channel, writes
    to the first", and the spec says the same.  Each method acts on the
    pipe its [p_pipe] points to. *)
Definition First_sendString (pipe : BiDirectionPipe)
    (buffer : list Byte.byte) (length : nat) (msg_request msg_seq : Z)
  : BiDirectionPipe * option (Message * RecvRequest) :=
  let '(ch, made) :=
    sendString (getSecondChannel pipe) buffer length msg_request msg_seq in
  (mkBiDirectionPipe (p_firstChannel pipe) ch, made).

(** Modelled from the spec: see [First_sendString]. *)
Definition First_recvString (pipe : BiDirectionPipe) (r : RecvRequest)
  : BiDirectionPipe * option (Message * RecvRequest) :=
  let '(ch, made) := submitRecvString (getFirstChannel pipe) r in
  (mkBiDirectionPipe ch (p_secondChannel pipe), made).

(** Modelled from the spec: see [First_sendString]. *)
Definition Second_sendString (pipe : BiDirectionPipe)
    (buffer : list Byte.byte) (length : nat) (msg_request msg_seq : Z)
  : BiDirectionPipe * option (Message * RecvRequest) :=
  let '(ch, made) :=
    sendString (getFirstChannel pipe) buffer length msg_request msg_seq in
  (mkBiDirectionPipe ch (p_secondChannel pipe), made).

(** Modelled from the spec: see [First_sendString]. *)
Definition Second_recvString (pipe : BiDirectionPipe) (r : RecvRequest)
  : BiDirectionPipe * option (Message * RecvRequest) :=
  let '(ch, made) := submitRecvString (getSecondChannel pipe) r in
  (mkBiDirectionPipe (p_firstChannel pipe) ch, made).

(** The two endpoints of a pipe, named after their descriptor kinds. *)
Inductive Endpoint := First | Second.

Definition peer (e : Endpoint) : Endpoint :=
  match e with First => Second | Second => First end.

(** [SendString] on a handle that resolves to endpoint [e]. *)
Definition endpointSend (e : Endpoint) (pipe : BiDirectionPipe)
    (buffer : list Byte.byte) (length : nat) (msg_request msg_seq : Z)
  : BiDirectionPipe * option (Message * RecvRequest) :=
  match e with
  | First => First_sendString pipe buffer length msg_request msg_seq
  | Second => Second_sendString pipe buffer length msg_request msg_seq
  end.

(** [SubmitRecvString] on a handle that resolves to endpoint [e]. *)
Definition endpointRecv (e : Endpoint) (pipe : BiDirectionPipe)
    (r : RecvRequest)
  : BiDirectionPipe * option (Message * RecvRequest) :=
  match e with
  | First => First_recvString pipe r
  | Second => Second_recvString pipe r
  end.

Definition sameEndpoint (e e' : Endpoint) : bool :=
  match e, e' with
  | First, First | Second, Second => true
  | _, _ => false
  end.

(** The channel an endpoint's receives are queued on and served from. *)
Definition inbox (e : Endpoint) (pipe : BiDirectionPipe) : Channel :=
  match e with
  | First => getFirstChannel pipe
  | Second => getSecondChannel pipe
  end.

End Ipc.

(** ** Threads, the scheduler and the interrupt entry (main.cpp) *)

Module Sched.
Import AsyncId Thor Ipc.

(** Modelled from the spec: the states of a thread.  The source's
    [Thread] holds a universe, an address space and the saved registers;
    the scheduling state is the spec's. *)
Inductive ThreadState := Ready | Running | Blocked | Exited.

(** Modelled from the spec: a thread as the scheduler sees it, its
    identity and its state. *)
Record Thread := mkThread {
  t_id : N;
  t_state : ThreadState
}.

Definition setState (t : Thread) (st : ThreadState) : Thread :=
  mkThread (t_id t) st.

(** [currentThread] and [scheduleQueue], the globals of main.cpp. *)
Record Scheduler := mkScheduler {
  currentThread : option Thread;
  scheduleQueue : list Thread
}.

(** Where [schedule()] leaves the processor. *)
Inductive Dispatch :=
| EnterThread (t : Thread)
| Halted.

(** Modelled from the spec: [schedule()] is declared in schedule.hpp,
    which is not among the sources.  This is the queue it picks from.
    [thorIrq] calls [schedule()] and nothing else for the timer, so it is
    [schedule()] that does what the spec says of preemption: a current
    thread that is still Running goes back onto the ready queue as Ready
    ("placing the previously Running thread back onto the ready queue
    (Ready) before picking the next head").  A current thread that is no
    longer Running (Blocked, Exited) is not queued; with it, or with no
    current thread, the head is picked from the queue as it stands. *)
Definition readyQueue (s : Scheduler) : list Thread :=
  match currentThread s with
  | Some t =>
      match t_state t with
      | Running => scheduleQueue s ++ [setState t Ready]
      | _ => scheduleQueue s
      end
  | None => scheduleQueue s
  end.

(** Modelled from the spec: [schedule()] picks and pops the head of the
    ready queue, makes it current and Running and trap-returns to it; on
    an empty queue the processor halts until a wake-up. *)
Definition schedule (s : Scheduler) : Scheduler * Dispatch :=
  match readyQueue s with
  | [] => (mkScheduler None [], Halted)
  | t :: rest =>
      (mkScheduler (Some (setState t Running)) rest,
       EnterThread (setState t Running))
  end.

(** Modelled from the spec: a hub waiting for the next fire of a relay. *)
Record IrqWaiter := mkIrqWaiter {
  w_hub : ObjectId;
  w_info : SubmitInfo
}.

(** The kernel state the interrupt entry touches: the vectors
    acknowledged at the controller, [irqRelays], the events posted to
    hubs, and the scheduler's globals. *)
Record Kernel := mkKernel {
  acknowledged : list Z;
  irqRelays : Z → list IrqWaiter;
  posted : list (ObjectId * HelEvent);
  scheduler : Scheduler
}.

(** Modelled from the spec: [thorRtAcknowledgeIrq] belongs to the
    platform interface; it acknowledges the vector at the controller. *)
Definition thorRtAcknowledgeIrq (irq : Z) (k : Kernel) : Kernel :=
  mkKernel (acknowledged k ++ [irq]) (irqRelays k) (posted k) (scheduler k).

(** Modelled from the spec: the OK event a relay posts to a waiter; it
    carries the waiter's submit-info and no payload. *)
Definition irqEvent (w : IrqWaiter) : ObjectId * HelEvent :=
  (w_hub w,
   mkHelEvent kErrSuccess (asyncId (w_info w)) (submitFunction (w_info w))
     (submitObject (w_info w)) 0 0 0 0).

(** Modelled from the spec: [IrqRelay::fire] "posts an OK event to each
    waiting subscriber exactly once per fire, then clears its waiter
    list". *)
Definition fire (irq : Z) (k : Kernel) : Kernel :=
  mkKernel (acknowledged k)
    (fun v => if v =? irq then [] else irqRelays k v)
    (posted k ++ map irqEvent (irqRelays k irq))
    (scheduler k).

(** How [thorIrq] leaves the kernel. *)
Inductive IrqExit :=
| IntoSchedule (d : Dispatch)
| FullReturn.

(** [extern "C" void thorIrq(int irq)]:
    [thorRtAcknowledgeIrq(irq); irqRelays[irq].fire();
     if(irq == 0) { schedule(); } else { thorRtFullReturn(); }].
    Neither [schedule()] nor [thorRtFullReturn()] comes back, so the
    assertion after them is not reached; [thorRtFullReturn] resumes the
    interrupted context and leaves the scheduler's globals alone. *)
Definition thorIrq (irq : Z) (k : Kernel) : Kernel * IrqExit :=
  let k1 := thorRtAcknowledgeIrq irq k in
  let k2 := fire irq k1 in
  if irq =? 0 then
    let '(s, d) := schedule (scheduler k2) in
    (mkKernel (acknowledged k2) (irqRelays k2) (posted k2) s,
     IntoSchedule d)
  else
    (k2, FullReturn).

(** The spec's preemption scenario: thread 1 runs, thread 2 is ready,
    and a hub waits on vector 1. *)
Definition twoThreads : Kernel :=
  mkKernel []
    (fun v => if v =? 1 then [mkIrqWaiter 9%N (SubmitInfo_make 42 0 0)]
              else [])
    []
    (mkScheduler (Some (mkThread 1 Running)) [mkThread 2 Ready]).

End Sched.

(** ** The system-call dispatcher (main.cpp) *)

Module Hel.
Import Machine Thor Ipc.

(** [Word]: the register-sized unsigned integer of the entry stub. *)
Definition Word : Type := Z.

(** The case labels of the [switch] in [thorSyscall], in source order. *)
Inductive HelCall :=
| kHelCallLog
| kHelCallPanic
| kHelCallCloseDescriptor
| kHelCallAllocateMemory
| kHelCallMapMemory
| kHelCallMemoryInfo
| kHelCallCreateThread
| kHelCallExitThisThread
| kHelCallCreateEventHub
| kHelCallWaitForEvents
| kHelCallCreateBiDirectionPipe
| kHelCallSendString
| kHelCallSubmitRecvString
| kHelCallCreateServer
| kHelCallSubmitAccept
| kHelCallSubmitConnect
| kHelCallAccessIrq
| kHelCallSubmitWaitForIrq
| kHelCallAccessIo
| kHelCallEnableIo.

(** The kernel functions the cases call. *)
Inductive HelFn :=
| helLog
| helCloseDescriptor
| helAllocateMemory
| helMapMemory
| helMemoryInfo
| helCreateThread
| helExitThisThread
| helCreateEventHub
| helWaitForEvents
| helCreateBiDirectionPipe
| helSendString
| helSubmitRecvString
| helCreateServer
| helSubmitAccept
| helSubmitConnect
| helAccessIrq
| helSubmitWaitForIrq
| helAccessIo
| helEnableIo.

(** How a case passes a register argument on: cast to [HelHandle], or
    cast to anything else (a pointer, a size, a tag, a vector). *)
Inductive Cast := AsHandle | AsValue.

(** The statements the cases are made of.
    [SHel f ins outs] is [HelError error = f(ins..., &out_0, ...);] with
    [outs] locals passed by address; [SReturnSyscall1] is
    [thorRtReturnSyscall1((Word)error)], [SReturnSyscall2] passes the
    first local as well and [SReturnSyscall3] the first two, as every
    case of the source does; [SSchedule] is [schedule();], [SWhileTrue]
    is [while(true) { }] and [SAssert b msg] is [ASSERT(b)]. *)
Inductive Stmt :=
| SHel (f : HelFn) (ins : list (Cast * nat)) (outs : nat)
| SReturnSyscall1
| SReturnSyscall2
| SReturnSyscall3
| SSchedule
| SWhileTrue
| SAssert (holds : bool) (message : string).

(** The body of each case, up to the next label.  No case ends in
    [break]. *)
Definition caseBody (c : HelCall) : list Stmt :=
  match c with
  | kHelCallLog =>
      [SHel helLog [(AsValue, 0); (AsValue, 1)]%nat 0; SReturnSyscall1]
  | kHelCallPanic =>
      [SHel helLog [(AsValue, 0); (AsValue, 1)]%nat 0; SWhileTrue]
  | kHelCallCloseDescriptor =>
      [SHel helCloseDescriptor [(AsHandle, 0)]%nat 0; SReturnSyscall1]
  | kHelCallAllocateMemory =>
      [SHel helAllocateMemory [(AsValue, 0)]%nat 1; SReturnSyscall2]
  | kHelCallMapMemory =>
      [SHel helMapMemory [(AsHandle, 0); (AsValue, 1); (AsValue, 2)]%nat 1;
       SReturnSyscall2]
  | kHelCallMemoryInfo =>
      [SHel helMemoryInfo [(AsHandle, 0)]%nat 1; SReturnSyscall2]
  | kHelCallCreateThread =>
      [SHel helCreateThread
         [(AsValue, 0); (AsValue, 1); (AsValue, 2)]%nat 1;
       SReturnSyscall2]
  | kHelCallExitThisThread =>
      [SHel helExitThisThread [] 0; SSchedule]
  | kHelCallCreateEventHub =>
      [SHel helCreateEventHub [] 1; SReturnSyscall2]
  | kHelCallWaitForEvents =>
      [SHel helWaitForEvents
         [(AsHandle, 0); (AsValue, 1); (AsValue, 2); (AsValue, 3)]%nat 1;
       SReturnSyscall2]
  | kHelCallCreateBiDirectionPipe =>
      [SHel helCreateBiDirectionPipe [] 2; SReturnSyscall3]
  | kHelCallSendString =>
      [SHel helSendString
         [(AsHandle, 0); (AsValue, 1); (AsValue, 2); (AsValue, 3);
          (AsValue, 4)]%nat 0;
       SReturnSyscall1]
  | kHelCallSubmitRecvString =>
      [SHel helSubmitRecvString
         [(AsHandle, 0); (AsHandle, 1); (AsValue, 2); (AsValue, 3);
          (AsValue, 4); (AsValue, 5); (AsValue, 6); (AsValue, 7);
          (AsValue, 8)]%nat 0;
       SReturnSyscall1]
  | kHelCallCreateServer =>
      [SHel helCreateServer [] 2; SReturnSyscall3]
  | kHelCallSubmitAccept =>
      [SHel helSubmitAccept
         [(AsHandle, 0); (AsHandle, 1); (AsValue, 2); (AsValue, 3);
          (AsValue, 4)]%nat 0;
       SReturnSyscall1]
  | kHelCallSubmitConnect =>
      [SHel helSubmitConnect
         [(AsHandle, 0); (AsHandle, 1); (AsValue, 2); (AsValue, 3);
          (AsValue, 4)]%nat 0;
       SReturnSyscall1]
  | kHelCallAccessIrq =>
      [SHel helAccessIrq [(AsValue, 0)]%nat 1; SReturnSyscall2]
  | kHelCallSubmitWaitForIrq =>
      [SHel helSubmitWaitForIrq
         [(AsHandle, 0); (AsHandle, 1); (AsValue, 2); (AsValue, 3);
          (AsValue, 4)]%nat 0;
       SReturnSyscall1]
  | kHelCallAccessIo =>
      [SHel helAccessIo [(AsValue, 0); (AsValue, 1)]%nat 1; SReturnSyscall2]
  | kHelCallEnableIo =>
      [SHel helEnableIo [(AsHandle, 0)]%nat 0; SReturnSyscall1]
  end.

(** The labelled cases in the order the source lists them. *)
Definition caseLabels : list HelCall :=
  [kHelCallLog; kHelCallPanic; kHelCallCloseDescriptor;
   kHelCallAllocateMemory; kHelCallMapMemory; kHelCallMemoryInfo;
   kHelCallCreateThread; kHelCallExitThisThread; kHelCallCreateEventHub;
   kHelCallWaitForEvents; kHelCallCreateBiDirectionPipe; kHelCallSendString;
   kHelCallSubmitRecvString; kHelCallCreateServer; kHelCallSubmitAccept;
   kHelCallSubmitConnect; kHelCallAccessIrq; kHelCallSubmitWaitForIrq;
   kHelCallAccessIo; kHelCallEnableIo].

(** [default: ASSERT(!"Illegal syscall");] *)
Definition defaultCase : list Stmt := [SAssert false "Illegal syscall"].

(** [ASSERT(!"No return at end of thorSyscall()");] after the switch. *)
Definition epilogue : list Stmt :=
  [SAssert false "No return at end of thorSyscall()"].

(** How an entry into the kernel ends. *)
Inductive Outcome :=
| TrapReturn (words : list Word)
| Rescheduled
| Spins
| AssertionFailed (message : string)
| Returned.

(** Modelled from the spec: [thorRtReturnSyscall1] belongs to the
    platform interface ("trap return for user and kernel contexts") and
    is not among the sources; it returns to the calling thread with one
    result word and does not come back. *)
Definition thorRtReturnSyscall1 (out0 : Word) : Outcome :=
  TrapReturn [out0].

(** Modelled from the spec: as [thorRtReturnSyscall1], with two result
    words. *)
Definition thorRtReturnSyscall2 (out0 out1 : Word) : Outcome :=
  TrapReturn [out0; out1].

(** Modelled from the spec: as [thorRtReturnSyscall1], with three result
    words. *)
Definition thorRtReturnSyscall3 (out0 out1 out2 : Word) : Outcome :=
  TrapReturn [out0; out1; out2].

(** Modelled from the spec: [schedule()] is not among the sources; seen
    from its caller it dispatches some thread ("trap-return to user mode
    at its saved register state") or halts until a wake-up, and does not
    come back. *)
Definition scheduleLeaves : Outcome := Rescheduled.

(** Modelled from the spec: the [ASSERT] macro is not among the sources;
    "assertions ... if violated, log diagnostics ... and halt the CPU".
    An assertion that holds lets control go on. *)
Definition ASSERT (holds : bool) (message : string) : option Outcome :=
  if holds then None else Some (AssertionFailed message).



(** The kernel functions a statement list names. *)
Fixpoint calledFns (body : list Stmt) : list HelFn :=
  match body with
  | [] => []
  | SHel f _ _ :: rest => f :: calledFns rest
  | _ :: rest => calledFns rest
  end.

(** An outcome that does not hand control back to the code after it. *)
Definition nonReturning (o : Outcome) : Prop :=
  match o with
  | TrapReturn _ | Rescheduled | Spins => True
  | AssertionFailed _ | Returned => False
  end.

Section Dispatcher.

(** The kernel state the calls act on. *)
Variable K : Type.

(** The values of the case labels: the enumerators of hel.h, which is
    not among the sources. *)
Variable kHelCall : HelCall → Word.

(** The kernel functions of hel.h: from the arguments, each with the
    cast the case applies, and the state, to the new state, the
    [HelError] and the values stored through the out-parameters. *)
Variable hel : HelFn → list (Cast * Word) → K → K * (Word * list Word).

(** Running statements in sequence, with the locals [error] and the
    out-parameters, and the kernel functions called so far.  A statement
    that leaves the kernel ends the run; the end of the list is the end
    of the function. *)
Fixpoint exec (body : list Stmt) (args : list Word) (k : K)
    (error : Word) (outs : list Word) (called : list HelFn)
  : K * list HelFn * Outcome :=
  match body with
  | [] => (k, called, Returned)
  | SHel f ins _ :: rest =>
      let '(k', (error', outs')) :=
        hel f (map (fun ci => (fst ci, nth (snd ci) args 0)) ins) k in
      exec rest args k' error' outs' (called ++ [f])
  | SReturnSyscall1 :: _ => (k, called, thorRtReturnSyscall1 error)
  | SReturnSyscall2 :: _ =>
      (k, called, thorRtReturnSyscall2 error (nth 0 outs 0))
  | SReturnSyscall3 :: _ =>
      (k, called, thorRtReturnSyscall3 error (nth 0 outs 0) (nth 1 outs 0))
  | SSchedule :: _ => (k, called, scheduleLeaves)
  | SWhileTrue :: _ => (k, called, Spins)
  | SAssert holds message :: rest =>
      match ASSERT holds message with
      | Some halt => (k, called, halt)
      | None => exec rest args k error outs called
      end
  end.

(** The statements from a case on: without [break], control runs on
    through the cases below it and into [default]. *)
Definition fallThrough (below : list HelCall) : list Stmt :=
  concat (map caseBody below) ++ defaultCase.

(** [switch(index)]: the statements control runs through from the label
    that equals [index], or from [default]. *)
Fixpoint switch (index : Word) (labels : list HelCall) : list Stmt :=
  match labels with
  | [] => defaultCase
  | c :: below =>
      if kHelCall c =? index then caseBody c ++ fallThrough below
      else switch index below
  end.

(** [extern "C" void thorSyscall(Word index, Word arg0, ..., Word arg8)] *)
Definition thorSyscall (index : Word) (args : list Word) (k : K)
  : K * list HelFn * Outcome :=
  exec (switch index caseLabels ++ epilogue) args k 0 [] [].

End Dispatcher.

Section Resolution.

(** The kernel state besides the current thread's universe. *)
Variable Rest : Type.

(** The words of the error taxonomy. *)
Variable errorWord : Error → Word.

(** What a call does once its handle arguments have resolved. *)
Variable perform :
  HelFn → list AnyDescriptor → list (Cast * Word) → Universe * Rest →
  (Universe * Rest) * (Word * list Word).




End Resolution.

(** A numbering of the calls to run the dispatcher on: the position of
    the label in the source, from 1. *)
Definition sourceOrder (c : HelCall) : Word :=
  match c with
  | kHelCallLog => 1
  | kHelCallPanic => 2
  | kHelCallCloseDescriptor => 3
  | kHelCallAllocateMemory => 4
  | kHelCallMapMemory => 5
  | kHelCallMemoryInfo => 6
  | kHelCallCreateThread => 7
  | kHelCallExitThisThread => 8
  | kHelCallCreateEventHub => 9
  | kHelCallWaitForEvents => 10
  | kHelCallCreateBiDirectionPipe => 11
  | kHelCallSendString => 12
  | kHelCallSubmitRecvString => 13
  | kHelCallCreateServer => 14
  | kHelCallSubmitAccept => 15
  | kHelCallSubmitConnect => 16
  | kHelCallAccessIrq => 17
  | kHelCallSubmitWaitForIrq => 18
  | kHelCallAccessIo => 19
  | kHelCallEnableIo => 20
  end.


(** Kernel functions that succeed and store nothing, to run the
    dispatcher's control flow on. *)
Definition helSucceeds (f : HelFn) (ins : list (Cast * Word)) (k : unit)
  : unit * (Word * list Word) :=
  (k, (0, [])).



End Hel.

(** ** The UHCI driver (src/unnamed/part_001, the second file in it) *)

Module Uhci.
Import Machine.

(** Reduction of a mathematical integer to a [uint32_t]. *)
Definition wrapU32 (x : Z) : Z := x mod 2 ^ 32.

(** The value of a [uint8_t]. *)
Definition byteValue (b : Byte.byte) : Z := Z.of_N (Byte.to_N b).

(** The loop of [fetch]: [x = (x << 8) | *p++; assert(p <= limit);],
    [count] times.  The buffer is the bytes from [p] up to [limit]; a
    read with none left moves [p] past [limit] and the assertion fails
    ([None]). *)
Fixpoint fetchLoop (count : nat) (x : Z) (p : list Byte.byte)
  : option (Z * list Byte.byte) :=
  match count with
  | O => Some (x, p)
  | S count' =>
      match p with
      | [] => None
      | b :: p' =>
          fetchLoop count' (Z.lor (wrapU32 (Z.shiftl x 8)) (byteValue b)) p'
      end
  end.

(** [uint32_t fetch(uint8_t *&p, void *limit, int n = 1)]: the value read
    and the advanced [p]; the loop does not run for [n <= 0]. *)
Definition fetch (p : list Byte.byte) (n : Z) : option (Z * list Byte.byte) :=
  fetchLoop (Z.to_nat n) 0 p.

(** The items [parseReportDescriptor] knows, by [token & 0xFC]. *)
Inductive ItemKind :=
| EndCollection
| Collection
| Input
| ReportCount
| ReportSize
| LogicalMaximum
| LogicalMinimum
| UsagePage
| UsageMaximum
| UsageMinimum
| Usage.

(** The case labels of the [switch(token & 0xFC)]. *)
Definition itemTag (k : ItemKind) : Z :=
  match k with
  | EndCollection => 0xC0
  | Collection => 0xA0
  | Input => 0x80
  | ReportCount => 0x94
  | ReportSize => 0x74
  | LogicalMaximum => 0x24
  | LogicalMinimum => 0x14
  | UsagePage => 0x04
  | UsageMaximum => 0x28
  | UsageMinimum => 0x18
  | Usage => 0x08
  end.

(** The [switch]: the case taken, or [default] ([None]). *)
Definition classify (tag : Z) : option ItemKind :=
  if tag =? 0xC0 then Some EndCollection
  else if tag =? 0xA0 then Some Collection
  else if tag =? 0x80 then Some Input
  else if tag =? 0x94 then Some ReportCount
  else if tag =? 0x74 then Some ReportSize
  else if tag =? 0x24 then Some LogicalMaximum
  else if tag =? 0x14 then Some LogicalMinimum
  else if tag =? 0x04 then Some UsagePage
  else if tag =? 0x28 then Some UsageMaximum
  else if tag =? 0x18 then Some UsageMinimum
  else if tag =? 0x08 then Some Usage
  else None.

(** How the parsing loop ends: [p] reached [limit]; an assertion of
    [fetch] failed; [abort()] on an unexpected token; or the model's
    fuel ran out. *)
Inductive ParseEnd :=
| ParseDone
| ParseAssert
| ParseAbort (tag : Z)
| ParseOutOfFuel.

(** The loop of [parseReportDescriptor]:
    [while(p < limit) { token = fetch(p, limit);
       data = fetch(p, limit, token & 0x03);
       switch(token & 0xFC) { ... printf ...; default: abort(); } }],
    with the items printed so far. *)
Fixpoint parseItems (fuel : nat) (p : list Byte.byte)
    (printed : list (ItemKind * Z)) : list (ItemKind * Z) * ParseEnd :=
  match p with
  | [] => (printed, ParseDone)
  | _ :: _ =>
      match fuel with
      | O => (printed, ParseOutOfFuel)
      | S fuel' =>
          match fetch p 1 with
          | None => (printed, ParseAssert)
          | Some (token, p1) =>
              match fetch p1 (Z.land token 0x03) with
              | None => (printed, ParseAssert)
              | Some (data, p2) =>
                  match classify (Z.land token 0xFC) with
                  | Some kind => parseItems fuel' p2 (printed ++ [(kind, data)])
                  | None => (printed, ParseAbort (Z.land token 0xFC))
                  end
              end
          end
      end
  end.

(** The parse of a whole buffer; every round consumes a byte, so the
    length of the buffer is fuel enough. *)
Definition parseReportDescriptor (buffer : list Byte.byte)
  : list (ItemKind * Z) * ParseEnd :=
  parseItems (length buffer) buffer [].

(** The value of bytes read most significant first, after [x]. *)
Definition bigEndian (bs : list Byte.byte) (x : Z) : Z :=
  fold_left (fun acc b => acc * 256 + byteValue b) bs x.

(** The byte of a value below 256 (and [x00] above). *)
Definition byteOf (v : Z) : Byte.byte :=
  match Byte.of_N (Z.to_N v) with
  | Some b => b
  | None => Byte.x00
  end.

(** The [n] bytes that [fetch] reads [v] back from: most significant
    first. *)
Fixpoint bytesOf (n : nat) (v : Z) : list Byte.byte :=
  match n with
  | O => []
  | S n' => byteOf (v / 256 ^ Z.of_nat n' mod 256) :: bytesOf n' v
  end.

(** An item as bytes: the token (tag and size code), then the data. *)
Definition itemBytes (kind : ItemKind) (size : nat) (data : Z)
  : list Byte.byte :=
  byteOf (Z.lor (itemTag kind) (Z.of_nat size)) :: bytesOf size data.

(** A sequence of items as bytes. *)
Definition encodeItems (items : list (ItemKind * nat * Z)) : list Byte.byte :=
  concat (map (fun i => itemBytes (fst (fst i)) (snd (fst i)) (snd i)) items).

(** An item whose size code fits the two bits the token has for it and
    whose data fits the size. *)
Definition itemFits (i : ItemKind * nat * Z) : Prop :=
  (snd (fst i) ≤ 3)%nat ∧ 0 ≤ snd i < 256 ^ Z.of_nat (snd (fst i)).

(** What is printed for an item: its kind and its data. *)
Definition itemPrinted (i : ItemKind * nat * Z) : ItemKind * Z :=
  (fst (fst i), snd i).

(** [enum XferFlags] *)
Definition kXferToDevice : Z := 1.
Definition kXferToHost : Z := 2.

(** The packet ids and data toggles [buildQueue] passes to
    [TransferToken]. *)
Inductive PacketId := kPacketSetup | kPacketIn | kPacketOut.
Inductive DataToggle := kData0 | kData1.

(** What a descriptor's buffer pointer is built from: the setup packet,
    the caller's buffer at an offset, or nothing. *)
Inductive BufferPointer :=
| SetupBuffer
| DataBuffer (offset : Z)
| NoBuffer.

(** A [TransferDescriptor] as [buildQueue] fills it: the token's packet
    id, toggle, device address, endpoint and length, the buffer pointer,
    and the index in [_transfers] its link pointer is set to ([None]:
    left as constructed). *)
Record TransferDescriptor := mkTransferDescriptor {
  td_pid : PacketId;
  td_toggle : DataToggle;
  td_address : Z;
  td_endpoint : Z;
  td_length : Z;
  td_buffer : BufferPointer;
  td_link : option Z
}.

(** [_numTransfers = (_setup.wLength + max_size - 1) / max_size], in
    [size_t].  ([max_size = 0] divides by zero in the source.) *)
Definition numTransfers (wLength max_size : Z) : Z :=
  wrapU64 (wLength + max_size - 1) / max_size.

(** [flags & kXferToDevice] *)
Definition toDevice (flags : Z) : bool :=
  negb (Z.land flags kXferToDevice =? 0).

Definition toHost (flags : Z) : bool :=
  negb (Z.land flags kXferToHost =? 0).

(** The loop that fills [_transfers[i + 1]] for the data stage, from
    round [i] with [progress] bytes placed, for [count] rounds:
    [chunk = std::min(max_size, _setup.wLength - progress)], packet out
    to the device or in to the host, toggle [kData0] for even [i], the
    buffer at [progress], the link to [_transfers[i + 2]]. *)
Fixpoint dataStage (count : nat) (i progress : Z) (flags address endpoint
    wLength max_size : Z) : list TransferDescriptor :=
  match count with
  | O => []
  | S count' =>
      let chunk := Z.min max_size (wrapU64 (wLength - progress)) in
      mkTransferDescriptor
        (if toDevice flags then kPacketOut else kPacketIn)
        (if i mod 2 =? 0 then kData0 else kData1)
        address endpoint chunk (DataBuffer progress) (Some (i + 2))
      :: dataStage count' (i + 1) (wrapU64 (progress + chunk))
           flags address endpoint wLength max_size
  end.

(** [Transaction::buildQueue]: the array [_transfers], setup stage, data
    stage and status stage; [None] when the assertion on the flags
    fails.  [sizeofSetupPacket] is [sizeof(SetupPacket)], whose
    declaration is not among the sources. *)
Definition buildQueue (sizeofSetupPacket flags address endpoint
    wLength max_size : Z) : option (list TransferDescriptor) :=
  if toDevice flags || toHost flags then
    let n := numTransfers wLength max_size in
    Some
      (mkTransferDescriptor kPacketSetup kData0 address endpoint
         sizeofSetupPacket SetupBuffer (Some 1)
       :: dataStage (Z.to_nat n) 0 0 flags address endpoint wLength max_size
       ++ [mkTransferDescriptor
             (if toDevice flags then kPacketIn else kPacketOut)
             kData0 address endpoint 0 NoBuffer None])
  else None.

(** The descriptors of the data stage, [_transfers[1 .. _numTransfers]]. *)
Definition dataDescriptors (wLength max_size flags address endpoint : Z)
  : list TransferDescriptor :=
  dataStage (Z.to_nat (numTransfers wLength max_size)) 0 0
    flags address endpoint wLength max_size.

(** The data descriptor of round [j], from [j] alone: its bytes start at
    [j * max_size] and are as many as are left, up to [max_size]. *)
Definition dataDescriptorAt (wLength max_size flags address endpoint : Z)
    (j : Z) : TransferDescriptor :=
  mkTransferDescriptor
    (if toDevice flags then kPacketOut else kPacketIn)
    (if j mod 2 =? 0 then kData0 else kData1)
    address endpoint (Z.min max_size (wLength - j * max_size))
    (DataBuffer (j * max_size)) (Some (j + 2)).

(** The bytes a list of descriptors moves. *)
Definition totalLength (tds : list TransferDescriptor) : Z :=
  fold_right (fun td acc => td_length td + acc) 0 tds.

(** What the controller has written into a descriptor's status:
    [_controlStatus.isActive()] and [_controlStatus.isAnyError()]. *)
Record TdStatus := mkTdStatus {
  isActive : bool;
  isAnyError : bool
}.

(** What [Transaction::progress] came to: [return false]; [return true]
    after "Transfer error!"; [return true] after calling [_callback]. *)
Inductive Progress := Pending | Failed | Completed.

Definition returnsTrue (r : Progress) : bool :=
  match r with Pending => false | Failed | Completed => true end.

(** The loop of [progress] over the descriptors from [_completeCounter]
    on: the counter it stops at, and the result. *)
Fixpoint progressFrom (statuses : list TdStatus) (counter : nat)
  : nat * Progress :=
  match statuses with
  | [] => (counter, Completed)
  | s :: statuses' =>
      if isActive s then (counter, Pending)
      else if isAnyError s then (counter, Failed)
      else progressFrom statuses' (S counter)
  end.

(** [bool Transaction::progress()], on the [_numTransfers + 2] statuses
    of [_transfers] and [_completeCounter]. *)
Definition progress (statuses : list TdStatus) (completeCounter : nat)
  : nat * Progress :=
  progressFrom (drop completeCounter statuses) completeCounter.

(** A queue head is named by its address. *)
Definition QueueId : Type := N.

(** [QueueHead::LinkPointer]: the queue head it was made [from], or the
    default-constructed pointer ([None]). *)
Definition LinkPointer : Type := option QueueId.

(** A [Transaction] on the schedule list: its queue head [_queue], that
    queue head's [_linkPointer], the statuses of its descriptors and
    [_completeCounter]. *)
Record Transaction := mkTransaction {
  t_queue : QueueId;
  t_linkPointer : LinkPointer;
  t_statuses : list TdStatus;
  t_completeCounter : nat
}.

(** [Transaction::head] *)
Definition head (t : Transaction) : LinkPointer := Some (t_queue t).

(** [Transaction::linkNext] *)
Definition linkNext (link : LinkPointer) (t : Transaction) : Transaction :=
  mkTransaction (t_queue t) link (t_statuses t) (t_completeCounter t).

(** The controller's [_initialQh._linkPointer] and [scheduleList]. *)
Record Controller := mkController {
  initialLink : LinkPointer;
  scheduleList : list Transaction
}.

(** [Controller::transfer], after [buildQueue] has made the queue head
    ([new (_queue) QueueHead], its link pointer as constructed): the
    first transaction is linked from [_initialQh], a later one from the
    last of the list; then [push_back]. *)
Definition transfer (c : Controller) (queue : QueueId)
    (statuses : list TdStatus) : Controller :=
  let transaction := mkTransaction queue None statuses 0 in
  match scheduleList c with
  | [] => mkController (head transaction) [transaction]
  | _ :: _ =>
      mkController (initialLink c)
        (alter (linkNext (head transaction))
           (length (scheduleList c) - 1)%nat (scheduleList c)
         ++ [transaction])
  end.

(** [Controller::erase] of the transaction at position [i]: the link to
    the next one's head, or a default link when it is the last, is
    stored in [_initialQh] for the first transaction and in the previous
    one's queue head otherwise; then the list element is erased. *)
Definition erase (c : Controller) (i : nat) : Controller :=
  let link :=
    match scheduleList c !! S i with
    | Some next => head next
    | None => None
    end in
  match i with
  | O => mkController link (delete O (scheduleList c))
  | S prev =>
      mkController (initialLink c)
        (delete i (alter (linkNext link) prev (scheduleList c)))
  end.

(** What the completion callbacks do to the controller.  A callback of
    this driver ([WaitForXfer::await_suspend]) resumes a coroutine,
    which runs to its next [COFIBER_AWAIT WaitForXfer], that is to a
    call of [Controller::transfer], or to its end.  For the queue head
    of a completed transaction, [Submits] gives the transfers its
    callback submits: their queue heads, and the descriptor statuses
    [progress] will find. *)
Definition Submits : Type := QueueId → list (QueueId * list TdStatus).

(** [_callback()], called by [progress] while the transaction is still
    on the list. *)
Definition runCallback (submits : Submits) (q : QueueId) (c : Controller)
  : Controller :=
  fold_left (fun c' s => transfer c' (fst s) (snd s)) (submits q) c.

(** The loop of [onIrq]: [if(it->progress()) it = erase(it); else
    ++it;] from position [i], for at most [rounds] rounds, with the
    queues whose callback has run. *)
Fixpoint processTransfers (submits : Submits) (rounds : nat) (i : nat)
    (c : Controller) (completed : list QueueId)
  : Controller * list QueueId :=
  match rounds with
  | O => (c, completed)
  | S rounds' =>
      match scheduleList c !! i with
      | None => (c, completed)
      | Some t =>
          let '(counter, result) :=
            progress (t_statuses t) (t_completeCounter t) in
          let t' :=
            mkTransaction (t_queue t) (t_linkPointer t) (t_statuses t)
              counter in
          let c' := mkController (initialLink c) (<[i := t']> (scheduleList c)) in
          match result with
          | Pending => processTransfers submits rounds' (S i) c' completed
          | Failed => processTransfers submits rounds' i (erase c' i) completed
          | Completed =>
              processTransfers submits rounds' i
                (erase (runCallback submits (t_queue t) c') i)
                (completed ++ [t_queue t])
          end
      end
  end.

(** The queue heads the controller walks: from [_initialQh]'s link
    through the link pointers, these are the transactions of the list,
    in order, and after the last the link is a default one. *)
Fixpoint chained (link : LinkPointer) (l : list Transaction) : Prop :=
  match l with
  | [] => link = None
  | t :: l' => link = Some (t_queue t) ∧ chained (t_linkPointer t) l'
  end.

Definition mirrors (c : Controller) : Prop :=
  chained (initialLink c) (scheduleList c).

(** The link to the first queue head of a list, a default link for an
    empty list. *)
Definition headOf (l : list Transaction) : LinkPointer :=
  match l with
  | [] => None
  | t :: _ => head t
  end.

(** The queue heads of the transactions of a list. *)
Definition queues (l : list Transaction) : list QueueId := map t_queue l.

(** What [progress] makes of a transaction as the controller left it. *)
Definition outcome (t : Transaction) : Progress :=
  snd (progress (t_statuses t) (t_completeCounter t)).

(** [progress] returns false: the transaction stays on the list. *)
Definition stays (t : Transaction) : bool := negb (returnsTrue (outcome t)).

(** [progress] has run the callback. *)
Definition finishes (t : Transaction) : bool :=
  match outcome t with Completed => true | _ => false end.

End Uhci.

(* ===================================================================== *)
(** * Part II: properties                                                 *)
(* ===================================================================== *)

(** ** Machine integers *)

Module MachineFacts.
Import Machine.

Lemma wrapU64_small x : 0 ≤ x < 2 ^ 64 → wrapU64 x = x.
Proof. intros Hx. unfold wrapU64, modulus64. apply Z.mod_small. lia. Qed.

Lemma wrapU64_succ x : wrapU64 (wrapU64 x + 1) = wrapU64 (x + 1).
Proof. unfold wrapU64. apply Zplus_mod_idemp_l. Qed.

Lemma wrapS64_small x : - 2 ^ 63 ≤ x < 2 ^ 63 → wrapS64 x = x.
Proof.
  intros Hx. unfold wrapS64, modulus64.
  rewrite Z.mod_small; lia.
Qed.

Lemma wrapS64_succ x : wrapS64 (wrapS64 x + 1) = wrapS64 (x + 1).
Proof.
  unfold wrapS64, modulus64. f_equal.
  replace ((x + 2 ^ 63) mod 2 ^ 64 - 2 ^ 63 + 1 + 2 ^ 63)
    with ((x + 2 ^ 63) mod 2 ^ 64 + 1) by lia.
  rewrite Zplus_mod_idemp_l. f_equal. lia.
Qed.

End MachineFacts.

(** ** Async ids *)

Module AsyncIdFacts.
Import Machine MachineFacts AsyncId.

Lemma counterAfter_succ n :
  counterAfter (N.succ n) = wrapS64 (counterAfter n + 1).
Proof. unfold counterAfter. rewrite N.iter_succ. reflexivity. Qed.

(** The counter is the number of calls plus one, reduced to 64 bits. *)
Lemma counterAfter_closed n : counterAfter n = wrapS64 (1 + Z.of_N n).
Proof.
  induction n as [|n IH] using N.peano_ind.
  - reflexivity.
  - rewrite counterAfter_succ, IH, wrapS64_succ. f_equal. lia.
Qed.

Lemma issued_closed n : issued n = wrapS64 (1 + Z.of_N n).
Proof. unfold issued. simpl. apply counterAfter_closed. Qed.

(** Before the counter leaves the positive range, call [n] returns [n+1]. *)
Lemma issued_early n : (n < 2 ^ 63 - 1)%N → issued n = 1 + Z.of_N n.
Proof.
  intros Hn. rewrite issued_closed. apply wrapS64_small. lia.
Qed.

(** The first calls after boot, run. *)
Example first_async_ids : map issued [0; 1; 2; 3]%N = [1; 2; 3; 4].
Proof. reflexivity. Qed.

Lemma wrapS64_zero x : 0 < x < 2 ^ 64 → wrapS64 x ≠ 0.
Proof.
  intros Hx. unfold wrapS64, modulus64.
  destruct (Z_lt_ge_dec x (2 ^ 63)) as [Hlt|Hge].
  - rewrite Z.mod_small; lia.
  - replace (x + 2 ^ 63) with (x - 2 ^ 63 + 1 * 2 ^ 64) by lia.
    rewrite Z_mod_plus_full, Z.mod_small; lia.
Qed.

(** C4 (amended).  Until the 64-bit counter leaves the positive range,
    every call to [allocAsyncId] returns a value strictly greater than
    the value returned by any earlier call since boot, so the ids issued
    by the first 2^63 - 1 calls are pairwise different. *)
Theorem allocAsyncId_increasing_before_wrap (m n : N) :
  (m < n)%N → (n < 2 ^ 63 - 1)%N →
  issued m < issued n ∧ issued m ≠ issued n.
Proof.
  intros Hmn Hn.
  rewrite (issued_early m), (issued_early n) by lia.
  lia.
Qed.

Lemma allocAsyncId_increasing_before_wrap_witness :
  (0 < 1)%N ∧ (1 < 2 ^ 63 - 1)%N ∧
  (issued 0 < issued 1 ∧ issued 0 ≠ issued 1).
Proof.
  split; [lia|]. split; [lia|].
  apply (allocAsyncId_increasing_before_wrap 0 1); lia.
Defined.

(** C4 as stated fails: call number 2^63 - 1 (counting from 0) comes
    after call number 0 and returns the most negative 64-bit integer,
    which is below the 1 that call number 0 returned. *)
Lemma allocAsyncId_wraps_negative :
  (0 < 2 ^ 63 - 1)%N ∧
  issued 0 = 1 ∧
  issued (2 ^ 63 - 1) = - 2 ^ 63 ∧
  ¬ (issued 0 < issued (2 ^ 63 - 1)).
Proof.
  rewrite !issued_closed.
  split; [lia|]. split; [reflexivity|]. split; [reflexivity|].
  vm_compute. discriminate.
Qed.

(** C10 (amended).  None of the first 2^64 - 1 calls to [allocAsyncId]
    returns 0, so the async id 0 of a default-constructed [SubmitInfo]
    differs from the id of every request submitted through them. *)
Theorem allocAsyncId_nonzero_before_wrap (n : N) :
  (n < 2 ^ 64 - 1)%N →
  issued n ≠ 0 ∧ issued n ≠ asyncId SubmitInfo_default.
Proof.
  intros Hn. rewrite issued_closed. simpl asyncId.
  assert (wrapS64 (1 + Z.of_N n) ≠ 0) by (apply wrapS64_zero; lia).
  split; assumption.
Qed.

Lemma allocAsyncId_nonzero_before_wrap_witness :
  (5 < 2 ^ 64 - 1)%N ∧
  (issued 5 ≠ 0 ∧ issued 5 ≠ asyncId SubmitInfo_default).
Proof.
  split; [lia|].
  apply (allocAsyncId_nonzero_before_wrap 5); lia.
Defined.

(** C10 as stated fails: once the counter has gone through all 64-bit
    values, call number 2^64 - 1 (counting from 0) returns 0, the id of
    a default-constructed [SubmitInfo]. *)
Lemma allocAsyncId_returns_zero :
  issued (2 ^ 64 - 1) = 0 ∧
  issued (2 ^ 64 - 1) = asyncId SubmitInfo_default.
Proof.
  rewrite !issued_closed. split; reflexivity.
Qed.

End AsyncIdFacts.

(** ** The capability table *)

Module UniverseFacts.
Import Machine MachineFacts Thor.

Lemma runFrom_snoc u calls c :
  runFrom u (calls ++ [c]) = step (runFrom u calls) c.
Proof. unfold runFrom. rewrite fold_left_app. reflexivity. Qed.

Lemma run_snoc calls c : run (calls ++ [c]) = step (run calls) c.
Proof. apply runFrom_snoc. Qed.

Lemma attaches_snoc calls c :
  attaches (calls ++ [c])
  = attaches calls + (if isAttach c then 1 else 0).
Proof.
  unfold attaches. rewrite filter_app, length_app.
  destruct c; simpl; lia.
Qed.

Lemma attaches_nonneg calls : 0 ≤ attaches calls.
Proof. unfold attaches. lia. Qed.

Lemma attaches_app xs ys : attaches (xs ++ ys) = attaches xs + attaches ys.
Proof. unfold attaches. rewrite filter_app, length_app. lia. Qed.

Lemma returnedHandles_app xs ys :
  returnedHandles (xs ++ ys) = returnedHandles xs ++ returnedHandles ys.
Proof.
  induction xs as [|[h d|h] xs IH]; simpl; rewrite ?IH; reflexivity.
Qed.

(** The counter after any sequence of calls, wrap-around included. *)
Lemma nextHandle_run calls :
  _nextHandle (fst (run calls)) = wrapU64 (1 + attaches calls).
Proof.
  induction calls as [|c calls IH] using rev_ind.
  - reflexivity.
  - rewrite run_snoc, attaches_snoc.
    destruct c as [d|h]; simpl.
    + rewrite IH, wrapU64_succ. f_equal. lia.
    + rewrite IH. f_equal. lia.
Qed.

Lemma nextHandle_run_small calls :
  attaches calls < 2 ^ 64 - 1 →
  _nextHandle (fst (run calls)) = 1 + attaches calls.
Proof.
  intros Hb. rewrite nextHandle_run. apply wrapU64_small.
  pose proof (attaches_nonneg calls). lia.
Qed.

(** *** Liveness along a trace *)

Lemma snoc_eq_middle {A} (xs : list A) y before x after :
  xs ++ [y] = before ++ x :: after →
  (after = [] ∧ before = xs ∧ x = y)
  ∨ (∃ after', after = after' ++ [y] ∧ xs = before ++ x :: after').
Proof.
  destruct after as [|a after _] using rev_ind; intros Heq.
  - left. apply app_inj_tail in Heq as [-> ->]. auto.
  - right. exists after.
    change (before ++ x :: after ++ [a])
      with (before ++ (x :: after) ++ [a]) in Heq.
    rewrite app_assoc in Heq.
    apply app_inj_tail in Heq as [-> ->]. auto.
Qed.

Lemma live_returned evs h d : live evs h d → h ∈ returnedHandles evs.
Proof.
  intros (before & after & -> & _).
  rewrite returnedHandles_app. simpl. set_solver.
Qed.

Lemma live_snoc_attached evs h' d' h d :
  live (evs ++ [Attached h' d']) h d
  ↔ live evs h d ∨ (h = h' ∧ d = d').
Proof.
  split.
  - intros (before & after & Heq & Hnot).
    apply snoc_eq_middle in Heq
      as [(-> & -> & Hx)|(after' & -> & ->)].
    + right. inversion Hx. auto.
    + left. exists before, after'. split; [reflexivity|].
      set_solver.
  - intros [(before & after & -> & Hnot)|[-> ->]].
    + exists before, (after ++ [Attached h' d']).
      split; [by rewrite <- app_assoc|].
      intros Hin. apply elem_of_app in Hin as [Hin|Hin]; [auto|].
      apply list_elem_of_singleton in Hin. discriminate.
    + exists evs, []. split; [reflexivity|]. set_solver.
Qed.

Lemma live_snoc_detached evs h' h d :
  live (evs ++ [Detached h']) h d ↔ live evs h d ∧ h ≠ h'.
Proof.
  split.
  - intros (before & after & Heq & Hnot).
    apply snoc_eq_middle in Heq
      as [(-> & -> & Hx)|(after' & -> & ->)].
    + discriminate.
    + split.
      * exists before, after'. split; [reflexivity|]. set_solver.
      * intros ->. set_solver.
  - intros [(before & after & -> & Hnot) Hne].
    exists before, (after ++ [Detached h']).
    split; [by rewrite <- app_assoc|].
    intros Hin. apply elem_of_app in Hin as [Hin|Hin]; [auto|].
    apply list_elem_of_singleton in Hin. congruence.
Qed.


(** *** The invariant of a universe that has not exhausted its handles *)

Lemma run_invariant calls :
  attaches calls < 2 ^ 64 - 1 →
  (∀ h, h ∈ returnedHandles (snd (run calls)) →
        1 ≤ h < _nextHandle (fst (run calls))) ∧
  NoDup (returnedHandles (snd (run calls))) ∧
  (∀ h d, _descriptorMap (fst (run calls)) !! h = Some d
          ↔ live (snd (run calls)) h d).
Proof.
  induction calls as [|c calls IH] using rev_ind; intros Hb.
  - simpl. split; [|split].
    + intros h Hh. inversion Hh.
    + constructor.
    + intros h d. rewrite lookup_empty. split; [discriminate|].
      intros ([|? ?] & after & Heq & _); discriminate.
  - rewrite attaches_snoc in Hb.
    pose proof (attaches_nonneg calls) as Hnn.
    assert (Hb' : attaches calls < 2 ^ 64 - 1)
      by (destruct (isAttach c); lia).
    destruct (IH Hb') as (Hrange & Hnodup & Hlive).
    pose proof (nextHandle_run_small calls Hb') as Hnext.
    rewrite run_snoc.
    destruct c as [d'|h']; simpl in *.
    + rewrite returnedHandles_app. simpl.
      assert (Hfresh : _nextHandle (fst (run calls))
                       ∉ returnedHandles (snd (run calls))).
      { intros Hin. apply Hrange in Hin. lia. }
      split; [|split].
      * intros h Hh. rewrite wrapU64_small by lia.
        apply elem_of_app in Hh as [Hh|Hh].
        -- apply Hrange in Hh. lia.
        -- apply list_elem_of_singleton in Hh. lia.
      * apply NoDup_app. split; [assumption|]. split.
        -- intros x Hx Hx'. apply list_elem_of_singleton in Hx'.
           subst x. contradiction.
        -- apply NoDup_singleton.
      * intros h d. rewrite live_snoc_attached, <- Hlive.
        destruct (decide (h = _nextHandle (fst (run calls)))) as [->|Hne].
        -- rewrite lookup_insert_eq. split.
           ++ intros [= ->]. auto.
           ++ intros [Hold|[_ ->]]; [|reflexivity].
              exfalso. apply Hfresh.
              apply (live_returned _ _ d), Hlive, Hold.
        -- rewrite lookup_insert_ne by congruence. split; [auto|].
           intros [?|[? _]]; [assumption|contradiction].
    + rewrite returnedHandles_app, app_nil_r. simpl.
      split; [assumption|]. split; [assumption|].
      intros h d. rewrite live_snoc_detached, <- Hlive.
      destruct (decide (h = h')) as [->|Hne].
      * rewrite lookup_delete_eq. split; [discriminate|].
        intros [_ ?]. contradiction.
      * rewrite lookup_delete_ne by congruence. split; [auto|].
        intros [? _]. assumption.
Qed.

(** C1 (amended).  On a fresh universe, for every finite sequence of
    [attachDescriptor] and [detachDescriptor] calls with fewer than
    2^64 - 1 attaches: the counter grows strictly with each attach (and
    a detach leaves it alone), every returned handle is nonzero and
    different from all handles returned before it, and
    [getDescriptor h] returns the descriptor attached under [h] exactly
    when [h] was attached and has not been detached since. *)
Theorem handles_well_issued_before_wrap (calls : list Call) :
  attaches calls < 2 ^ 64 - 1 → handlesWellIssued calls.
Proof.
  intros Hb.
  destruct (run_invariant calls Hb) as (Hrange & Hnodup & Hlive).
  split; [|split; [|split]].
  - intros before c after ->.
    rewrite attaches_app in Hb.
    change (c :: after) with ([c] ++ after) in Hb.
    rewrite attaches_app in Hb.
    pose proof (attaches_nonneg before).
    pose proof (attaches_nonneg after).
    destruct c as [d|h].
    + change (attaches [CallAttach d]) with 1 in Hb.
      rewrite !nextHandle_run_small;
        rewrite ?attaches_snoc; simpl; lia.
    + rewrite run_snoc. reflexivity.
  - intros h Hh. apply Hrange in Hh. lia.
  - assumption.
  - intros h d. unfold getDescriptor. apply Hlive.
Qed.

Lemma handles_well_issued_before_wrap_witness :
  attaches [CallAttach (MemoryAccessDescriptor 7%N);
            CallAttach (BiDirectionFirstDescriptor 3%N);
            CallDetach 1;
            CallAttach (BiDirectionSecondDescriptor 3%N)] < 2 ^ 64 - 1
  ∧ handlesWellIssued
      [CallAttach (MemoryAccessDescriptor 7%N);
       CallAttach (BiDirectionFirstDescriptor 3%N);
       CallDetach 1;
       CallAttach (BiDirectionSecondDescriptor 3%N)].
Proof.
  split; [reflexivity|].
  apply handles_well_issued_before_wrap. reflexivity.
Defined.

(** Handle monotonicity, run: three memories are attached, the first and
    the third are closed, and one more is attached; it gets handle 4, and
    the lookups find what is live. *)
Example handles_after_closing :
  returnedHandles
    (snd (run [CallAttach (MemoryAccessDescriptor 10%N);
               CallAttach (MemoryAccessDescriptor 11%N);
               CallAttach (MemoryAccessDescriptor 12%N);
               CallDetach 1; CallDetach 3;
               CallAttach (MemoryAccessDescriptor 13%N)]))
  = [1; 2; 3; 4] ∧
  map (getDescriptor
         (fst (run [CallAttach (MemoryAccessDescriptor 10%N);
                    CallAttach (MemoryAccessDescriptor 11%N);
                    CallAttach (MemoryAccessDescriptor 12%N);
                    CallDetach 1; CallDetach 3;
                    CallAttach (MemoryAccessDescriptor 13%N)])))
      [0; 1; 2; 3; 4; 5]
  = [None; None; Some (MemoryAccessDescriptor 11%N); None;
     Some (MemoryAccessDescriptor 13%N); None].
Proof. split; reflexivity. Qed.

Lemma attaches_repeat d n :
  attaches (repeat (CallAttach d) n) = Z.of_nat n.
Proof.
  unfold attaches. induction n as [|n IH]; [reflexivity|].
  simpl repeat. rewrite filter_cons_True by reflexivity.
  simpl length. lia.
Qed.

(** C1 as stated fails for long sequences: after 2^64 - 1 attaches on a
    fresh universe the 64-bit counter has come round to 0, and the next
    attach returns the null handle. *)
Lemma attachDescriptor_returns_null_after_wrap :
  ¬ handlesWellIssued
      (repeat (CallAttach (MemoryAccessDescriptor 0%N))
              (N.to_nat (2 ^ 64 - 1))
       ++ [CallAttach (MemoryAccessDescriptor 0%N)]).
Proof.
  pose proof (attaches_repeat (MemoryAccessDescriptor 0%N)
                              (N.to_nat (2 ^ 64 - 1))) as Hlen.
  rewrite N_nat_Z in Hlen.
  generalize dependent (repeat (CallAttach (MemoryAccessDescriptor 0%N))
                               (N.to_nat (2 ^ 64 - 1))).
  intros calls Hlen (_ & Hnonzero & _).
  apply (Hnonzero 0); [|reflexivity].
  rewrite run_snoc. unfold step, attachDescriptor.
  cbn [fst snd]. rewrite returnedHandles_app.
  apply elem_of_app. right.
  rewrite nextHandle_run, Hlen.
  apply list_elem_of_singleton. reflexivity.
Qed.

End UniverseFacts.

(** ** IPC channels and pipes *)

Module IpcFacts.
Import AsyncId Thor Ipc.

Lemma runChannel_snoc ops op :
  runChannel (ops ++ [op]) = channelStep (runChannel ops) op.
Proof. unfold runChannel. rewrite fold_left_app. reflexivity. Qed.

Lemma sent_app xs ys : sent (xs ++ ys) = sent xs ++ sent ys.
Proof.
  induction xs as [|[b l rq sq|r] xs IH]; simpl; rewrite ?IH; reflexivity.
Qed.

Lemma submitted_app xs ys :
  submitted (xs ++ ys) = submitted xs ++ submitted ys.
Proof.
  induction xs as [|[b l rq sq|r] xs IH]; simpl; rewrite ?IH; reflexivity.
Qed.

Lemma tagsMatch_prefix ops op : tagsMatch (ops ++ [op]) → tagsMatch ops.
Proof.
  intros H m r Hm Hr. apply H.
  - rewrite sent_app. apply elem_of_app. auto.
  - rewrite submitted_app. apply elem_of_app. auto.
Qed.

Lemma takeFirst_head {A} (p : A → bool) x l :
  p x = true → takeFirst p (x :: l) = Some (x, l).
Proof. intros H. simpl. rewrite H. reflexivity. Qed.

Lemma takeFirst_none {A} (p : A → bool) l :
  (∀ x, x ∈ l → p x = false) → takeFirst p l = None.
Proof.
  induction l as [|x l IH]; intros H; [reflexivity|].
  simpl. rewrite (H x) by apply list_elem_of_here.
  rewrite IH; [reflexivity|].
  intros y Hy. apply H. apply list_elem_of_further, Hy.
Qed.

Lemma drop_head_elem {A} (l : list A) k x rest :
  drop k l = x :: rest →
  l !! k = Some x ∧ drop (S k) l = rest ∧ x ∈ l.
Proof.
  intros H.
  assert (Hk : l !! k = Some x).
  { rewrite <- (Nat.add_0_r k), <- lookup_drop, H. reflexivity. }
  split; [assumption|]. split.
  - rewrite (drop_S _ _ _ Hk) in H. congruence.
  - apply list_elem_of_lookup. eauto.
Qed.

(** The state of a channel whose receives accept every message: the
    matches made so far pair the first [k] messages with the first [k]
    receives, the rest of either is what is pending, and never both. *)
Lemma channel_invariant ops :
  tagsMatch ops →
  let ch := fst (runChannel ops) in
  let log := snd (runChannel ops) in
  map fst log = take (length log) (sent ops) ∧
  map snd log = take (length log) (submitted ops) ∧
  p_messages ch = drop (length log) (sent ops) ∧
  p_receives ch = drop (length log) (submitted ops) ∧
  (p_messages ch = [] ∨ p_receives ch = []).
Proof.
  induction ops as [|op ops IH] using rev_ind; intros Htags.
  - simpl. repeat split; auto.
  - specialize (IH (tagsMatch_prefix _ _ Htags)).
    rewrite runChannel_snoc.
    destruct (runChannel ops) as [ch log]. simpl in IH.
    destruct IH as (Hm & Hr & Hpm & Hpr & Hone).
    assert (Hks : (length log ≤ length (sent ops))%nat).
    { rewrite <- (length_map fst log), Hm, length_take. lia. }
    assert (Hkr : (length log ≤ length (submitted ops))%nat).
    { rewrite <- (length_map snd log), Hr, length_take. lia. }
    rewrite sent_app, submitted_app.
    destruct op as [buffer len rq sq|r]; simpl sent; simpl submitted;
      rewrite ?app_nil_r; unfold channelStep; cbn [fst snd].
    + (* a send *)
      set (m := mkMessage (firstn len buffer) rq sq).
      unfold sendString. fold m.
      destruct (p_receives ch) as [|r rest] eqn:Hrecv.
      * (* nobody waits: the message is queued *)
        simpl. rewrite take_app_le, drop_app_le by assumption.
        rewrite Hpm. repeat split; auto.
      * (* the oldest waiting receive takes it *)
        symmetry in Hpr.
        destruct (drop_head_elem _ _ _ _ Hpr) as (Hlk & Hdrop & Hin).
        assert (Hmatch : matches m r = true).
        { apply Htags.
          - rewrite sent_app. apply elem_of_app. right. simpl.
            apply list_elem_of_here.
          - rewrite submitted_app, app_nil_r. assumption. }
        rewrite (takeFirst_head _ _ _ Hmatch). simpl.
        destruct Hone as [Hnil|Hnil]; [|discriminate].
        rewrite Hnil in Hpm. symmetry in Hpm.
        apply drop_nil_inv in Hpm.
        assert (Hk : length log = length (sent ops)) by lia.
        rewrite length_app, !map_app. simpl.
        rewrite Nat.add_1_r, Hm, Hr.
        split; [|split; [|split; [|split]]].
        -- rewrite !take_ge by (rewrite ?length_app; simpl; lia).
           reflexivity.
        -- symmetry. apply take_S_r, Hlk.
        -- rewrite drop_ge by (rewrite length_app; simpl; lia).
           assumption.
        -- symmetry. assumption.
        -- left. assumption.
    + (* a receive *)
      unfold submitRecvString.
      destruct (p_messages ch) as [|m rest] eqn:Hmsgs.
      * (* nothing pending: the receive waits *)
        simpl. rewrite take_app_le, drop_app_le by assumption.
        rewrite Hpr. repeat split; auto.
      * (* the oldest pending message is delivered *)
        symmetry in Hpm.
        destruct (drop_head_elem _ _ _ _ Hpm) as (Hlk & Hdrop & Hin).
        assert (Hmatch : matches m r = true).
        { apply Htags.
          - rewrite sent_app, app_nil_r. assumption.
          - rewrite submitted_app. apply elem_of_app. right. simpl.
            apply list_elem_of_here. }
        rewrite (takeFirst_head (λ m, matches m r) _ _ Hmatch). simpl.
        destruct Hone as [Hnil|Hnil]; [discriminate|].
        rewrite Hnil in Hpr. symmetry in Hpr.
        apply drop_nil_inv in Hpr.
        assert (Hk : length log = length (submitted ops)) by lia.
        rewrite length_app, !map_app. simpl.
        rewrite Nat.add_1_r, Hm, Hr.
        split; [|split; [|split; [|split]]].
        -- symmetry. apply take_S_r, Hlk.
        -- rewrite !take_ge by (rewrite ?length_app; simpl; lia).
           reflexivity.
        -- symmetry. assumption.
        -- rewrite drop_ge by (rewrite length_app; simpl; lia).
           assumption.
        -- right. assumption.
Qed.

Lemma tagsMatchb_sound ops : tagsMatchb ops = true → tagsMatch ops.
Proof.
  unfold tagsMatchb, tagsMatch. intros H m r Hm Hr.
  rewrite forallb_forall in H.
  apply list_elem_of_In in Hm. apply list_elem_of_In in Hr.
  specialize (H m Hm). rewrite forallb_forall in H. auto.
Qed.

(** C2.  On a channel, for every interleaving of sends and receive
    submissions whose tags match, receives complete in send order: every
    send meets a receive as soon as both exist, and the i-th completion
    is that of the i-th submitted receive with the i-th message sent. *)
Theorem channel_preserves_send_order (ops : list ChannelOp) :
  tagsMatch ops →
  length (completions ops)
  = Nat.min (length (sent ops)) (length (submitted ops)) ∧
  ∀ i c, completions ops !! i = Some c →
    ∃ m r, sent ops !! i = Some m ∧ submitted ops !! i = Some r ∧
           c = complete m r.
Proof.
  intros Htags.
  destruct (channel_invariant ops Htags) as (Hm & Hr & Hpm & Hpr & Hone).
  unfold completions.
  set (log := snd (runChannel ops)) in *.
  set (ch := fst (runChannel ops)) in *.
  assert (Hks : (length log ≤ length (sent ops))%nat).
  { rewrite <- (length_map fst log), Hm, length_take. lia. }
  assert (Hkr : (length log ≤ length (submitted ops))%nat).
  { rewrite <- (length_map snd log), Hr, length_take. lia. }
  split.
  - rewrite length_map.
    destruct Hone as [Hnil|Hnil].
    + rewrite Hnil in Hpm. symmetry in Hpm. apply drop_nil_inv in Hpm. lia.
    + rewrite Hnil in Hpr. symmetry in Hpr. apply drop_nil_inv in Hpr. lia.
  - intros i c Hc.
    rewrite list_lookup_fmap in Hc.
    destruct (log !! i) as [[m r]|] eqn:Hi; [|discriminate].
    injection Hc as <-.
    exists m, r. split; [|split; [|reflexivity]].
    + assert (H : map fst log !! i = Some m)
        by (change (map fst log) with (fst <$> log);
            rewrite list_lookup_fmap, Hi; reflexivity).
      rewrite Hm in H. apply lookup_take_Some in H. tauto.
    + assert (H : map snd log !! i = Some r)
        by (change (map snd log) with (snd <$> log);
            rewrite list_lookup_fmap, Hi; reflexivity).
      rewrite Hr in H. apply lookup_take_Some in H. tauto.
Qed.

Lemma channel_preserves_send_order_witness :
  tagsMatch [OpSubmitRecv helloRecv; OpSend hello 5 0 0;
             OpSend hello 3 1 2; OpSubmitRecv helloRecv] ∧
  (length (completions [OpSubmitRecv helloRecv; OpSend hello 5 0 0;
                        OpSend hello 3 1 2; OpSubmitRecv helloRecv])
   = Nat.min
       (length (sent [OpSubmitRecv helloRecv; OpSend hello 5 0 0;
                      OpSend hello 3 1 2; OpSubmitRecv helloRecv]))
       (length (submitted [OpSubmitRecv helloRecv; OpSend hello 5 0 0;
                           OpSend hello 3 1 2; OpSubmitRecv helloRecv])) ∧
   ∀ i c,
     completions [OpSubmitRecv helloRecv; OpSend hello 5 0 0;
                  OpSend hello 3 1 2; OpSubmitRecv helloRecv] !! i = Some c →
     ∃ m r,
       sent [OpSubmitRecv helloRecv; OpSend hello 5 0 0;
             OpSend hello 3 1 2; OpSubmitRecv helloRecv] !! i = Some m ∧
       submitted [OpSubmitRecv helloRecv; OpSend hello 5 0 0;
                  OpSend hello 3 1 2; OpSubmitRecv helloRecv] !! i = Some r ∧
       c = complete m r).
Proof.
  split.
  - apply tagsMatchb_sound. reflexivity.
  - apply channel_preserves_send_order.
    apply tagsMatchb_sound. reflexivity.
Defined.

(** The echo scenario, run: the receive completes with the five bytes,
    their length and the message's tags, for async id 7. *)
Example echo_completes :
  completions [OpSubmitRecv helloRecv; OpSend hello 5 0 0]
  = [mkCompletion 1%N (mkHelEvent kErrSuccess 7 0 0 5 0 0 0) 4096 hello].
Proof. reflexivity. Qed.

(** A filter that names another request leaves the message pending. *)
Example filter_mismatch_waits :
  runChannel [OpSend hello 5 3 0;
              OpSubmitRecv (mkRecvRequest 1%N 4096 5 4 kHelAny
                              (SubmitInfo_make 8 0 0))]
  = (mkChannel [mkMessage hello 3 0]
               [mkRecvRequest 1%N 4096 5 4 kHelAny (SubmitInfo_make 8 0 0)],
     []).
Proof. reflexivity. Qed.

Lemma takeFirst_last {A} (p : A → bool) l y :
  (∀ x, x ∈ l → p x = false) → p y = true →
  takeFirst p (l ++ [y]) = Some (y, l).
Proof.
  induction l as [|x l IH]; intros Hl Hy; simpl.
  - rewrite Hy. reflexivity.
  - rewrite (Hl x) by apply list_elem_of_here.
    rewrite IH; [reflexivity| |assumption].
    intros z Hz. apply Hl, list_elem_of_further, Hz.
Qed.

(** A send that no waiting receive takes, followed by a receive that only
    this message satisfies, hands the message over and leaves the channel
    as it was. *)
Lemma channel_send_then_recv ch buffer len rq sq r :
  let m := mkMessage (take len buffer) rq sq in
  (∀ r', r' ∈ p_receives ch → matches m r' = false) →
  (∀ m', m' ∈ p_messages ch → matches m' r = false) →
  matches m r = true →
  sendString ch buffer len rq sq
  = (mkChannel (p_messages ch ++ [m]) (p_receives ch), None) ∧
  submitRecvString (mkChannel (p_messages ch ++ [m]) (p_receives ch)) r
  = (ch, Some (m, r)).
Proof.
  intros m Hrecv Hmsgs Hmatch. split.
  - unfold sendString. fold m.
    rewrite (takeFirst_none _ _ Hrecv). reflexivity.
  - unfold submitRecvString. simpl.
    rewrite (takeFirst_last (λ m', matches m' r) _ m Hmsgs Hmatch).
    destruct ch; reflexivity.
Qed.

Lemma complete_fits m r :
  (getLength m ≤ r_length r)%nat →
  complete m r
  = mkCompletion (r_hub r)
      (mkHelEvent kErrSuccess (asyncId (r_submitInfo r))
         (submitFunction (r_submitInfo r)) (submitObject (r_submitInfo r))
         (getLength m) (p_msgRequest m) (p_msgSeq m) 0)
      (r_buffer r) (p_buffer m).
Proof.
  intros Hfit. unfold complete.
  destruct (Nat.leb_spec (getLength m) (r_length r)); [reflexivity|lia].
Qed.

(** C3.  A [SendString] of [len] bytes of [buf_in] with tags
    [(msg_request, msg_seq)] through one endpoint of a pipe, followed by
    the [SubmitRecvString] on the peer endpoint that matches it, with a
    receive buffer of at least [len] bytes, delivers to the receiver
    exactly the bytes [buf_in[0..len]] and the same tags.  That the two
    calls are matched with each other is spelled out: no receive already
    waiting on the peer's side takes the message, and no message already
    pending there satisfies the receive's filter. *)
Theorem send_recv_roundtrip (e : Endpoint) (pipe : BiDirectionPipe)
    (buf_in : list Byte.byte) (len : nat) (msg_request msg_seq : Z)
    (r : RecvRequest) :
  let m := mkMessage (take len buf_in) msg_request msg_seq in
  (∀ r', r' ∈ p_receives (inbox (peer e) pipe) → matches m r' = false) →
  (∀ m', m' ∈ p_messages (inbox (peer e) pipe) → matches m' r = false) →
  matches m r = true →
  (len ≤ r_length r)%nat →
  let sending := endpointSend e pipe buf_in len msg_request msg_seq in
  let receiving := endpointRecv (peer e) (fst sending) r in
  snd sending = None ∧
  fst receiving = pipe ∧
  ∃ c, completionOf <$> snd receiving = Some c ∧
       c_hub c = r_hub r ∧
       c_buffer c = r_buffer r ∧
       c_bytes c = take len buf_in ∧
       e_error (c_event c) = kErrSuccess ∧
       e_asyncId (c_event c) = asyncId (r_submitInfo r) ∧
       e_length (c_event c) = length (take len buf_in) ∧
       e_msgRequest (c_event c) = msg_request ∧
       e_msgSeq (c_event c) = msg_seq.
Proof.
  intros m Hrecv Hmsgs Hmatch Hfit sending receiving.
  assert (Hlen : (getLength m ≤ r_length r)%nat).
  { unfold getLength, m. simpl. rewrite length_take. lia. }
  pose proof (complete_fits m r Hlen) as Hc.
  subst sending receiving.
  destruct e; simpl in Hrecv, Hmsgs;
    destruct (channel_send_then_recv _ buf_in len msg_request msg_seq r
                Hrecv Hmsgs Hmatch) as [Hs Hr];
    unfold endpointSend, endpointRecv, peer,
      First_sendString, First_recvString,
      Second_sendString, Second_recvString,
      getFirstChannel, getSecondChannel in *;
    rewrite Hs; cbn [fst snd p_firstChannel p_secondChannel];
    rewrite Hr; cbn [fst snd];
    (split; [reflexivity|]); (split; [destruct pipe; reflexivity|]);
    exists (complete m r); (split; [reflexivity|]);
    rewrite Hc; simpl; repeat split; reflexivity.
Qed.

Lemma send_recv_roundtrip_witness :
  (∀ r', r' ∈ p_receives (inbox (peer First) BiDirectionPipe_new) →
         matches (mkMessage (take 5 hello) 0 0) r' = false) ∧
  (∀ m', m' ∈ p_messages (inbox (peer First) BiDirectionPipe_new) →
         matches m' helloRecv = false) ∧
  matches (mkMessage (take 5 hello) 0 0) helloRecv = true ∧
  (5 ≤ r_length helloRecv)%nat ∧
  (snd (endpointSend First BiDirectionPipe_new hello 5 0 0) = None ∧
   fst (endpointRecv (peer First)
          (fst (endpointSend First BiDirectionPipe_new hello 5 0 0))
          helloRecv) = BiDirectionPipe_new ∧
   ∃ c, completionOf
          <$> snd (endpointRecv (peer First)
                     (fst (endpointSend First BiDirectionPipe_new
                             hello 5 0 0)) helloRecv) = Some c ∧
        c_hub c = r_hub helloRecv ∧
        c_buffer c = r_buffer helloRecv ∧
        c_bytes c = take 5 hello ∧
        e_error (c_event c) = kErrSuccess ∧
        e_asyncId (c_event c) = asyncId (r_submitInfo helloRecv) ∧
        e_length (c_event c) = length (take 5 hello) ∧
        e_msgRequest (c_event c) = 0 ∧
        e_msgSeq (c_event c) = 0).
Proof.
  assert (H1 : ∀ r', r' ∈ p_receives (inbox (peer First) BiDirectionPipe_new) →
                     matches (mkMessage (take 5 hello) 0 0) r' = false)
    by (intros r' Hr'; inversion Hr').
  assert (H2 : ∀ m', m' ∈ p_messages (inbox (peer First) BiDirectionPipe_new) →
                     matches m' helloRecv = false)
    by (intros m' Hm'; inversion Hm').
  assert (H3 : matches (mkMessage (take 5 hello) 0 0) helloRecv = true)
    by reflexivity.
  assert (H4 : (5 ≤ r_length helloRecv)%nat) by (simpl; lia).
  split; [exact H1|]. split; [exact H2|]. split; [exact H3|].
  split; [exact H4|].
  exact (send_recv_roundtrip First BiDirectionPipe_new hello 5 0 0
           helloRecv H1 H2 H3 H4).
Defined.

(** C6.  In every pipe the First descriptor's send acts on the second
    channel and leaves the first alone, and its receive acts on the first
    channel and leaves the second alone; the Second descriptor sends on
    the first channel and receives on the second.  Hence a send through
    an endpoint never changes what a receive through that same endpoint
    obtains, and on a fresh pipe the message sent through [e] is obtained
    by a receive through [e'] exactly when [e'] is the other endpoint
    (and the receive's filter accepts the message). *)
Theorem bidirection_endpoints_cross (pipe : BiDirectionPipe)
    (buffer : list Byte.byte) (len : nat) (msg_request msg_seq : Z)
    (r : RecvRequest) :
  let m := mkMessage (take len buffer) msg_request msg_seq in
  First_sendString pipe buffer len msg_request msg_seq
  = (mkBiDirectionPipe
       (p_firstChannel pipe)
       (fst (sendString (p_secondChannel pipe) buffer len
               msg_request msg_seq)),
     snd (sendString (p_secondChannel pipe) buffer len
            msg_request msg_seq)) ∧
  First_recvString pipe r
  = (mkBiDirectionPipe
       (fst (submitRecvString (p_firstChannel pipe) r))
       (p_secondChannel pipe),
     snd (submitRecvString (p_firstChannel pipe) r)) ∧
  Second_sendString pipe buffer len msg_request msg_seq
  = (mkBiDirectionPipe
       (fst (sendString (p_firstChannel pipe) buffer len
               msg_request msg_seq))
       (p_secondChannel pipe),
     snd (sendString (p_firstChannel pipe) buffer len
            msg_request msg_seq)) ∧
  Second_recvString pipe r
  = (mkBiDirectionPipe
       (p_firstChannel pipe)
       (fst (submitRecvString (p_secondChannel pipe) r)),
     snd (submitRecvString (p_secondChannel pipe) r)) ∧
  (∀ e,
     inbox e (fst (endpointSend e pipe buffer len msg_request msg_seq))
     = inbox e pipe ∧
     snd (endpointRecv e
            (fst (endpointSend e pipe buffer len msg_request msg_seq)) r)
     = snd (endpointRecv e pipe r)) ∧
  (∀ e e',
     snd (endpointRecv e'
            (fst (endpointSend e BiDirectionPipe_new buffer len
                    msg_request msg_seq)) r)
     = if sameEndpoint e' (peer e) && matches m r
       then Some (m, r) else None).
Proof.
  intros m.
  unfold First_sendString, First_recvString, Second_sendString,
    Second_recvString, getFirstChannel, getSecondChannel.
  split; [destruct (sendString _ _ _ _ _); reflexivity|].
  split; [destruct (submitRecvString _ _); reflexivity|].
  split; [destruct (sendString _ _ _ _ _); reflexivity|].
  split; [destruct (submitRecvString _ _); reflexivity|].
  split.
  - intros e. destruct e; simpl;
      unfold First_sendString, First_recvString, Second_sendString,
        Second_recvString, getFirstChannel, getSecondChannel;
      destruct (sendString _ _ _ _ _) as [ch made]; simpl;
      (split; [reflexivity|]);
      destruct (submitRecvString _ _); reflexivity.
  - intros e e'.
    destruct e, e'; simpl;
      unfold First_sendString, First_recvString, Second_sendString,
        Second_recvString, getFirstChannel, getSecondChannel,
        sendString, submitRecvString; simpl; fold m;
      destruct (matches m r); reflexivity.
Qed.

End IpcFacts.

(** ** The interrupt entry *)

Module SchedFacts.
Import AsyncId Thor Ipc Sched.

(** A current thread that is Running joins the back of the ready queue,
    as Ready, before the head is picked. *)
Lemma schedule_preempts s t :
  currentThread s = Some t → t_state t = Running →
  readyQueue s = scheduleQueue s ++ [setState t Ready] ∧
  match scheduleQueue s with
  | [] =>
      schedule s = (mkScheduler (Some (setState t Running)) [],
                    EnterThread (setState t Running))
  | next :: rest =>
      schedule s
      = (mkScheduler (Some (setState next Running))
           (rest ++ [setState t Ready]),
         EnterThread (setState next Running))
  end.
Proof.
  intros Hcur Hrun.
  assert (Hq : readyQueue s = scheduleQueue s ++ [setState t Ready])
    by (unfold readyQueue; rewrite Hcur, Hrun; reflexivity).
  split; [assumption|].
  unfold schedule. rewrite Hq.
  destruct (scheduleQueue s); reflexivity.
Qed.

(** C7.  [thorIrq] first acknowledges the vector at the controller and
    fires its relay.  For vector 0 it then enters [schedule()]: a
    current thread that was Running is put at the back of the ready
    queue as Ready, and the head of that queue is picked.  For every
    other vector it performs a full return to the interrupted context:
    the current thread and the ready queue are as they were. *)
Theorem thorIrq_timer_reschedules (irq : Z) (k : Kernel) :
  acknowledged (fst (thorIrq irq k)) = acknowledged k ++ [irq] ∧
  posted (fst (thorIrq irq k))
  = posted k ++ map irqEvent (irqRelays k irq) ∧
  irqRelays (fst (thorIrq irq k)) irq = [] ∧
  (irq = 0 →
     snd (thorIrq irq k) = IntoSchedule (snd (schedule (scheduler k))) ∧
     scheduler (fst (thorIrq irq k)) = fst (schedule (scheduler k)) ∧
     ∀ t, currentThread (scheduler k) = Some t → t_state t = Running →
       readyQueue (scheduler k)
       = scheduleQueue (scheduler k) ++ [setState t Ready] ∧
       match scheduleQueue (scheduler k) with
       | [] =>
           scheduler (fst (thorIrq irq k))
           = mkScheduler (Some (setState t Running)) []
       | next :: rest =>
           scheduler (fst (thorIrq irq k))
           = mkScheduler (Some (setState next Running))
               (rest ++ [setState t Ready])
       end) ∧
  (irq ≠ 0 →
     snd (thorIrq irq k) = FullReturn ∧
     scheduler (fst (thorIrq irq k)) = scheduler k).
Proof.
  unfold thorIrq.
  destruct (Z.eqb_spec irq 0) as [->|Hne].
  - simpl. destruct (schedule (scheduler k)) as [s d] eqn:Hs. simpl.
    split; [reflexivity|]. split; [reflexivity|]. split; [reflexivity|].
    split; [|intros Hne; contradiction].
    intros _. split; [reflexivity|]. split; [reflexivity|].
    intros t Hcur Hrun.
    destruct (schedule_preempts _ _ Hcur Hrun) as [Hq Hpick].
    split; [exact Hq|].
    destruct (scheduleQueue (scheduler k));
      rewrite Hs in Hpick; congruence.
  - simpl. rewrite Z.eqb_refl.
    split; [reflexivity|]. split; [reflexivity|]. split; [reflexivity|].
    split; [intros Heq; contradiction|].
    intros _. split; reflexivity.
Qed.

Lemma thorIrq_timer_reschedules_witness :
  currentThread (scheduler twoThreads) = Some (mkThread 1 Running) ∧
  scheduler (fst (thorIrq 0 twoThreads))
  = mkScheduler (Some (mkThread 2 Running)) [mkThread 1 Ready] ∧
  snd (thorIrq 1 twoThreads) = FullReturn ∧
  scheduler (fst (thorIrq 1 twoThreads)) = scheduler twoThreads.
Proof.
  split; [reflexivity|].
  destruct (thorIrq_timer_reschedules 0 twoThreads)
    as (_ & _ & _ & Htimer & _).
  destruct (Htimer eq_refl) as (_ & _ & Hq).
  destruct (Hq (mkThread 1 Running) eq_refl eq_refl) as [_ Hpick].
  split; [exact Hpick|].
  destruct (thorIrq_timer_reschedules 1 twoThreads)
    as (_ & _ & _ & _ & Hother).
  apply Hother. discriminate.
Defined.

(** Vector 1 in the scenario: the waiting hub gets its event, once, and
    the interrupted thread goes on. *)
Example irq_delivery :
  posted (fst (thorIrq 1 twoThreads))
  = [(9%N, mkHelEvent kErrSuccess 42 0 0 0 0 0 0)] ∧
  irqRelays (fst (thorIrq 1 twoThreads)) 1 = [] ∧
  currentThread (scheduler (fst (thorIrq 1 twoThreads)))
  = Some (mkThread 1 Running).
Proof. repeat split. Qed.

End SchedFacts.

(** ** The system-call dispatcher *)

Module HelFacts.
Import Machine Thor Ipc Hel UniverseFacts.

Lemma all_labels c : c ∈ caseLabels.
Proof. destruct c; unfold caseLabels; repeat constructor. Qed.

Section Dispatcher.

Variable K : Type.
Variable kHelCall : HelCall → Word.
Variable hel : HelFn → list (Cast * Word) → K → K * (Word * list Word).

(** An index that is no label selects [default]. *)
Lemma switch_default index labels :
  (∀ c, kHelCall c ≠ index) → switch kHelCall index labels = defaultCase.
Proof.
  intros Hnone. induction labels as [|c below IH]; [reflexivity|].
  simpl. destruct (Z.eqb_spec (kHelCall c) index) as [Heq|_].
  - destruct (Hnone c Heq).
  - exact IH.
Qed.

(** C8.  When [thorSyscall] is invoked with an index that is none of the
    case labels, control reaches [default] and its assertion fails: no
    kernel function is called, and the outcome is the fatal assertion
    failure, not a trap return to the calling thread. *)
Theorem unknown_syscall_is_fatal (index : Word) (args : list Word) (k : K) :
  (∀ c, kHelCall c ≠ index) →
  thorSyscall K kHelCall hel index args k
  = (k, [], AssertionFailed "Illegal syscall") ∧
  ¬ nonReturning (snd (thorSyscall K kHelCall hel index args k)) ∧
  ∀ words, snd (thorSyscall K kHelCall hel index args k) ≠ TrapReturn words.
Proof.
  intros Hnone. unfold thorSyscall.
  rewrite (switch_default _ _ Hnone). simpl.
  split; [reflexivity|]. split; [tauto|discriminate].
Qed.

(** With distinct label values, the label of [c] selects the body of [c],
    followed by whatever lies below it. *)
Lemma switch_label labels c :
  Inj (=) (=) kHelCall → c ∈ labels →
  ∃ below,
    switch kHelCall (kHelCall c) labels = caseBody c ++ fallThrough below.
Proof.
  intros Hinj. induction labels as [|c' below IH]; intros Hin.
  - inversion Hin.
  - simpl. destruct (Z.eqb_spec (kHelCall c') (kHelCall c)) as [Heq|Hne].
    + apply Hinj in Heq. subst c'. eauto.
    + apply IH. apply elem_of_cons in Hin as [->|Hin]; [|assumption].
      contradiction.
Qed.

(** Every case leaves the kernel within its own statements. *)
Lemma exec_own_body c rest args k error outs called :
  exec K hel (caseBody c ++ rest) args k error outs called
  = exec K hel (caseBody c) args k error outs called ∧
  snd (fst (exec K hel (caseBody c) args k error outs called))
  = called ++ calledFns (caseBody c) ∧
  nonReturning (snd (exec K hel (caseBody c) args k error outs called)).
Proof.
  destruct c; simpl;
    match goal with
    | |- context [hel ?f ?a ?k] =>
        destruct (hel f a k) as [k' [error' outs']]
    end;
    simpl; repeat split; reflexivity.
Qed.

(** With distinct label values, a call's index runs that call's case and
    nothing after it. *)
Lemma thorSyscall_own_case (c : HelCall) (args : list Word) (k : K) :
  Inj (=) (=) kHelCall →
  thorSyscall K kHelCall hel (kHelCall c) args k
  = exec K hel (caseBody c) args k 0 [] [].
Proof.
  intros Hinj. unfold thorSyscall.
  destruct (switch_label caseLabels c Hinj (all_labels c)) as [below ->].
  rewrite <- app_assoc.
  apply exec_own_body.
Qed.

(** C9.  With the case labels distinct, as C++ requires of a switch,
    every enumerated syscall index leaves the kernel within the
    statements of its own case: the run of [thorSyscall] is the run of
    that case's body alone, the only kernel function called is the one
    the case names, and the outcome is a trap return, a dispatch by
    [schedule()] or the endless loop, never an assertion failure and
    never the end of the function. *)
Theorem syscall_cases_do_not_fall_through
    (c : HelCall) (args : list Word) (k : K) :
  Inj (=) (=) kHelCall →
  thorSyscall K kHelCall hel (kHelCall c) args k
  = exec K hel (caseBody c) args k 0 [] [] ∧
  snd (fst (thorSyscall K kHelCall hel (kHelCall c) args k))
  = calledFns (caseBody c) ∧
  nonReturning (snd (thorSyscall K kHelCall hel (kHelCall c) args k)) ∧
  (∀ message,
     snd (thorSyscall K kHelCall hel (kHelCall c) args k)
     ≠ AssertionFailed message).
Proof.
  intros Hinj. rewrite (thorSyscall_own_case c args k Hinj).
  destruct (exec_own_body c [] args k 0 [] []) as (_ & Hcalled & Hout).
  split; [reflexivity|]. split; [exact Hcalled|]. split; [exact Hout|].
  intros message Heq. rewrite Heq in Hout. exact Hout.
Qed.

End Dispatcher.

Section Resolution.

Variable Rest : Type.
Variable errorWord : Error → Word.
Variable perform :
  HelFn → list AnyDescriptor → list (Cast * Word) → Universe * Rest →
  (Universe * Rest) * (Word * list Word).
Variable kHelCall : HelCall → Word.




End Resolution.

Lemma sourceOrder_inj : Inj (=) (=) sourceOrder.
Proof. intros c c' H. destruct c, c'; first [reflexivity|discriminate H]. Qed.

Lemma unknown_syscall_is_fatal_witness :
  (∀ c, sourceOrder c ≠ 0) ∧
  (thorSyscall unit sourceOrder helSucceeds 0 [] tt
   = (tt, [], AssertionFailed "Illegal syscall") ∧
   ¬ nonReturning (snd (thorSyscall unit sourceOrder helSucceeds 0 [] tt)) ∧
   ∀ words,
     snd (thorSyscall unit sourceOrder helSucceeds 0 [] tt)
     ≠ TrapReturn words).
Proof.
  assert (H : ∀ c, sourceOrder c ≠ 0) by (intros c; destruct c; discriminate).
  split; [exact H|].
  exact (unknown_syscall_is_fatal unit sourceOrder helSucceeds 0 [] tt H).
Defined.

Lemma syscall_cases_do_not_fall_through_witness :
  Inj (=) (=) sourceOrder ∧
  (thorSyscall unit sourceOrder helSucceeds
     (sourceOrder kHelCallExitThisThread) [] tt
   = exec unit helSucceeds (caseBody kHelCallExitThisThread) [] tt 0 [] [] ∧
   snd (fst (thorSyscall unit sourceOrder helSucceeds
               (sourceOrder kHelCallExitThisThread) [] tt))
   = calledFns (caseBody kHelCallExitThisThread) ∧
   nonReturning
     (snd (thorSyscall unit sourceOrder helSucceeds
             (sourceOrder kHelCallExitThisThread) [] tt)) ∧
   (∀ message,
      snd (thorSyscall unit sourceOrder helSucceeds
             (sourceOrder kHelCallExitThisThread) [] tt)
      ≠ AssertionFailed message)).
Proof.
  split; [exact sourceOrder_inj|].
  exact (syscall_cases_do_not_fall_through unit sourceOrder helSucceeds
           kHelCallExitThisThread [] tt sourceOrder_inj).
Defined.


(** The dispatcher, run. *)
Example panic_call_spins :
  thorSyscall unit sourceOrder helSucceeds 2 [0; 0] tt
  = (tt, [helLog], Spins).
Proof. reflexivity. Qed.

Example create_pipe_returns_three_words :
  thorSyscall unit sourceOrder helSucceeds 11 [] tt
  = (tt, [helCreateBiDirectionPipe], TrapReturn [0; 0; 0]).
Proof. reflexivity. Qed.

Example index_21_is_fatal :
  thorSyscall unit sourceOrder helSucceeds 21 [] tt
  = (tt, [], AssertionFailed "Illegal syscall").
Proof. reflexivity. Qed.

End HelFacts.

(** ** The UHCI driver: reading report descriptors *)

Module UhciParseFacts.
Import Machine Uhci.

Lemma byteValue_bound b : 0 ≤ byteValue b < 256.
Proof.
  unfold byteValue. pose proof (Strings.Byte.to_N_bounded b). lia.
Qed.

Lemma byteValue_byteOf v : 0 ≤ v < 256 → byteValue (byteOf v) = v.
Proof.
  intros Hv. unfold byteValue, byteOf.
  destruct (Strings.Byte.of_N (Z.to_N v)) as [b|] eqn:Hb.
  - apply Strings.Byte.to_of_N in Hb. rewrite Hb. lia.
  - apply Strings.Byte.of_N_None_iff in Hb. lia.
Qed.

(** Shifting in a byte: the low eight bits of the shifted value are
    free, so the [|] is an addition. *)
Lemma shift_in_byte x d :
  0 ≤ x → 0 ≤ d < 256 →
  Z.lor (wrapU32 (Z.shiftl x 8)) d = wrapU32 (x * 256 + d).
Proof.
  intros Hx Hd. unfold wrapU32.
  rewrite Z.shiftl_mul_pow2 by lia.
  change (2 ^ 8) with 256. change (2 ^ 32) with (256 * 2 ^ 24).
  rewrite (Z.mul_comm x 256), Z.mul_mod_distr_l by lia.
  assert (Hsum : (256 * x + d) mod (256 * 2 ^ 24)
                 = 256 * (x mod 2 ^ 24) + d).
  { pose proof (Z.div_mod x (2 ^ 24) ltac:(lia)) as Hdm.
    pose proof (Z.mod_pos_bound x (2 ^ 24) ltac:(lia)) as Hr.
    replace (256 * x + d)
      with (256 * (x mod 2 ^ 24) + d + x / 2 ^ 24 * (256 * 2 ^ 24)) by lia.
    rewrite Z.mod_add by lia. apply Z.mod_small. lia. }
  rewrite Hsum.
  rewrite <- Z.lxor_lor; [symmetry; apply Z.add_nocarry_lxor|];
    apply Z.bits_inj'; intros n Hn; rewrite Z.land_spec, Z.bits_0;
    destruct (Z_lt_ge_dec n 8) as [Hlt|Hge].
  - rewrite (Z.mul_comm 256), <- (Z.shiftl_mul_pow2 _ 8) by lia.
    rewrite Z.shiftl_spec_low by lia. reflexivity.
  - rewrite (Z.bits_above_log2 d n); [apply andb_false_r|lia|].
    destruct (Z.eq_dec d 0) as [->|Hnz]; [simpl; lia|].
    apply Z.log2_lt_pow2; [lia|].
    apply Z.lt_le_trans with (2 ^ 8); [lia|].
    apply Z.pow_le_mono_r; lia.
  - rewrite (Z.mul_comm 256), <- (Z.shiftl_mul_pow2 _ 8) by lia.
    rewrite Z.shiftl_spec_low by lia. reflexivity.
  - rewrite (Z.bits_above_log2 d n); [apply andb_false_r|lia|].
    destruct (Z.eq_dec d 0) as [->|Hnz]; [simpl; lia|].
    apply Z.log2_lt_pow2; [lia|].
    apply Z.lt_le_trans with (2 ^ 8); [lia|].
    apply Z.pow_le_mono_r; lia.
Qed.

Lemma bigEndian_congruent bs y y' :
  wrapU32 y = wrapU32 y' →
  wrapU32 (bigEndian bs y) = wrapU32 (bigEndian bs y').
Proof.
  revert y y'. induction bs as [|b bs IH]; intros y y' Hy; [exact Hy|].
  simpl. apply IH. unfold wrapU32 in *.
  rewrite (Z.add_mod (y * 256)), (Z.add_mod (y' * 256)) by lia.
  rewrite (Z.mul_mod y), (Z.mul_mod y'), Hy by lia. reflexivity.
Qed.

Lemma bigEndian_bound bs x :
  0 ≤ x →
  x * 256 ^ Z.of_nat (length bs) ≤ bigEndian bs x
  < (x + 1) * 256 ^ Z.of_nat (length bs).
Proof.
  revert x. induction bs as [|b bs IH]; intros x Hx.
  - simpl. lia.
  - simpl bigEndian. pose proof (byteValue_bound b) as Hb.
    specialize (IH (x * 256 + byteValue b) ltac:(lia)).
    rewrite length_cons, Nat2Z.inj_succ, Z.pow_succ_r by lia.
    assert (0 < 256 ^ Z.of_nat (length bs)) by (apply Z.pow_pos_nonneg; lia).
    nia.
Qed.

Lemma fetchLoop_none count x p :
  fetchLoop count x p = None ↔ (length p < count)%nat.
Proof.
  revert x p. induction count as [|count IH]; intros x p; simpl.
  - split; [discriminate|lia].
  - destruct p as [|b p]; simpl.
    + split; [lia|reflexivity].
    + rewrite IH. lia.
Qed.

Lemma fetchLoop_value count x p :
  0 ≤ x < 2 ^ 32 → (count ≤ length p)%nat →
  fetchLoop count x p
  = Some (wrapU32 (bigEndian (take count p) x), drop count p).
Proof.
  revert x p. induction count as [|count IH]; intros x p Hx Hlen.
  - simpl. unfold wrapU32. rewrite Z.mod_small by lia. reflexivity.
  - destruct p as [|b p]; [simpl in Hlen; lia|].
    simpl in Hlen. simpl fetchLoop.
    pose proof (byteValue_bound b) as Hb.
    rewrite shift_in_byte by lia.
    rewrite IH; [| unfold wrapU32; apply Z.mod_pos_bound; lia | lia].
    simpl take. simpl drop. simpl bigEndian. f_equal. f_equal.
    apply bigEndian_congruent. unfold wrapU32.
    apply Z.mod_mod. lia.
Qed.

(** X1.  [fetch] either reads [n] bytes or fails its assertion: it fails
    exactly when fewer than [n] bytes are left before [limit];
    otherwise it moves [p] on by [n] bytes and returns the bytes read,
    most significant first, reduced to 32 bits, which for [n <= 4] is
    their value itself. *)
Theorem fetch_reads_big_endian (p : list Byte.byte) (n : Z) :
  (fetch p n = None ↔ (length p < Z.to_nat n)%nat) ∧
  ((Z.to_nat n ≤ length p)%nat →
     fetch p n
     = Some (wrapU32 (bigEndian (take (Z.to_nat n) p) 0),
             drop (Z.to_nat n) p) ∧
     (n ≤ 4 →
        wrapU32 (bigEndian (take (Z.to_nat n) p) 0)
        = bigEndian (take (Z.to_nat n) p) 0)).
Proof.
  unfold fetch. split; [apply fetchLoop_none|].
  intros Hlen. split; [apply fetchLoop_value; lia|].
  intros Hn.
  pose proof (bigEndian_bound (take (Z.to_nat n) p) 0 ltac:(lia)) as Hb.
  rewrite length_take, Nat.min_l in Hb by lia.
  unfold wrapU32. apply Z.mod_small.
  assert (256 ^ Z.of_nat (Z.to_nat n) ≤ 256 ^ 4)
    by (apply Z.pow_le_mono_r; lia).
  change (256 ^ 4) with (2 ^ 32) in *. lia.
Qed.

Lemma fetch_reads_big_endian_witness :
  (Z.to_nat 2 ≤ length [Byte.x12; Byte.x34; Byte.x56])%nat ∧
  2 ≤ 4 ∧
  fetch [Byte.x12; Byte.x34; Byte.x56] 2
  = Some (wrapU32 (bigEndian (take (Z.to_nat 2)
                                [Byte.x12; Byte.x34; Byte.x56]) 0),
          drop (Z.to_nat 2) [Byte.x12; Byte.x34; Byte.x56]) ∧
  wrapU32 (bigEndian (take (Z.to_nat 2) [Byte.x12; Byte.x34; Byte.x56]) 0)
  = bigEndian (take (Z.to_nat 2) [Byte.x12; Byte.x34; Byte.x56]) 0.
Proof.
  assert (H1 : (Z.to_nat 2 ≤ length [Byte.x12; Byte.x34; Byte.x56])%nat)
    by (simpl; lia).
  assert (H2 : 2 ≤ 4) by lia.
  split; [exact H1|]. split; [exact H2|].
  destruct (fetch_reads_big_endian [Byte.x12; Byte.x34; Byte.x56] 2)
    as [_ H].
  destruct (H H1) as [Hv He]. split; [exact Hv|exact (He H2)].
Defined.

(** [fetch], run: two bytes, then a read past the end. *)
Example fetch_two_bytes :
  fetch [Byte.x12; Byte.x34; Byte.x56] 2 = Some (0x1234, [Byte.x56]) ∧
  fetch [Byte.x12] 2 = None ∧
  fetch [Byte.x12] 0 = Some (0, [Byte.x12]).
Proof. repeat split. Qed.

Lemma length_bytesOf n v : length (bytesOf n v) = n.
Proof. induction n as [|n IH]; simpl; [reflexivity|]. rewrite IH. reflexivity. Qed.

Lemma bigEndian_bytesOf n v x :
  0 ≤ v →
  bigEndian (bytesOf n v) x
  = x * 256 ^ Z.of_nat n + v mod 256 ^ Z.of_nat n.
Proof.
  intros Hv. revert x. induction n as [|n IH]; intros x.
  - simpl. rewrite Z.mod_1_r. lia.
  - simpl bytesOf. simpl bigEndian.
    assert (Hp : 0 < 256 ^ Z.of_nat n) by (apply Z.pow_pos_nonneg; lia).
    rewrite byteValue_byteOf by (apply Z.mod_pos_bound; lia).
    rewrite IH.
    rewrite Nat2Z.inj_succ, Z.pow_succ_r by lia.
    rewrite (Z.mul_comm 256 (256 ^ Z.of_nat n)).
    rewrite (Z.rem_mul_r v (256 ^ Z.of_nat n) 256) by lia.
    lia.
Qed.

Lemma fetch_bytesOf n v rest :
  (n ≤ 4)%nat → 0 ≤ v < 256 ^ Z.of_nat n →
  fetch (bytesOf n v ++ rest) (Z.of_nat n) = Some (v, rest).
Proof.
  intros Hn Hv. unfold fetch. rewrite Nat2Z.id.
  rewrite fetchLoop_value
    by (try lia; rewrite length_app, length_bytesOf; lia).
  rewrite take_app_length' by (symmetry; apply length_bytesOf).
  rewrite drop_app_length' by (symmetry; apply length_bytesOf).
  rewrite bigEndian_bytesOf by lia.
  rewrite Z.mod_small by lia. simpl.
  unfold wrapU32. rewrite Z.mod_small; [reflexivity|].
  assert (256 ^ Z.of_nat n ≤ 256 ^ 4) by (apply Z.pow_le_mono_r; lia).
  change (256 ^ 4) with (2 ^ 32) in *. lia.
Qed.

Lemma byteOf_byteValue b : byteOf (byteValue b) = b.
Proof.
  unfold byteOf, byteValue. rewrite N2Z.id, Strings.Byte.of_to_N. reflexivity.
Qed.

Lemma bigEndian_linear bs x :
  bigEndian bs x = x * 256 ^ Z.of_nat (length bs) + bigEndian bs 0.
Proof.
  revert x. induction bs as [|b bs IH]; intros x; [simpl; lia|].
  simpl bigEndian. rewrite (IH (x * 256 + byteValue b)), (IH (0 * 256 + byteValue b)).
  rewrite length_cons, Nat2Z.inj_succ, Z.pow_succ_r by lia. lia.
Qed.

Lemma bytesOf_above n a r :
  0 ≤ a → 0 ≤ r → bytesOf n (a * 256 ^ Z.of_nat n + r) = bytesOf n r.
Proof.
  revert a. induction n as [|n IH]; intros a Ha Hr; [reflexivity|].
  simpl bytesOf.
  assert (Hp : 0 < 256 ^ Z.of_nat n) by (apply Z.pow_pos_nonneg; lia).
  rewrite Nat2Z.inj_succ, Z.pow_succ_r by lia.
  replace (a * (256 * 256 ^ Z.of_nat n) + r)
    with (a * 256 * 256 ^ Z.of_nat n + r) by lia.
  rewrite IH by lia. f_equal. f_equal.
  rewrite Z.div_add_l by lia.
  rewrite Z.add_comm, Z.mod_add by lia. reflexivity.
Qed.

Lemma bytesOf_bigEndian bs : bytesOf (length bs) (bigEndian bs 0) = bs.
Proof.
  induction bs as [|b bs IH]; [reflexivity|].
  simpl length. simpl bytesOf.
  assert (Hp : 0 < 256 ^ Z.of_nat (length bs)) by (apply Z.pow_pos_nonneg; lia).
  pose proof (bigEndian_bound bs 0 ltac:(lia)) as Hb.
  pose proof (byteValue_bound b) as Hv.
  simpl bigEndian. rewrite (bigEndian_linear bs (0 * 256 + byteValue b)).
  replace (0 * 256 + byteValue b) with (byteValue b) by lia.
  rewrite bytesOf_above, IH by lia. f_equal.
  rewrite Z.div_add_l by lia.
  rewrite (Z.div_small (bigEndian bs 0)) by lia.
  rewrite Z.add_0_r, Z.mod_small by lia.
  apply byteOf_byteValue.
Qed.

(** X2.  For up to four bytes, [fetch] and writing a value most
    significant first are inverse to each other: the [n] bytes of a
    value below [256^n] are read back as that value, with the bytes
    after them left to read; and whatever [fetch] returns, the buffer
    began with the [n] bytes of the value returned, followed by what is
    left. *)
Theorem fetch_bytesOf_roundtrip (n : nat) (v : Z) (p rest : list Byte.byte) :
  (n ≤ 4)%nat →
  (0 ≤ v < 256 ^ Z.of_nat n →
     fetch (bytesOf n v ++ rest) (Z.of_nat n) = Some (v, rest)) ∧
  (fetch p (Z.of_nat n) = Some (v, rest) → p = bytesOf n v ++ rest).
Proof.
  intros Hn. split; [intros Hv; apply fetch_bytesOf; assumption|].
  intros Hf.
  destruct (le_lt_dec n (length p)) as [Hle|Hlt].
  - unfold fetch in Hf. rewrite Nat2Z.id in Hf.
    rewrite fetchLoop_value in Hf by lia.
    injection Hf as Hv Hrest.
    pose proof (bigEndian_bound (take n p) 0 ltac:(lia)) as Hb.
    rewrite length_take, Nat.min_l in Hb by lia.
    assert (256 ^ Z.of_nat n ≤ 256 ^ 4) by (apply Z.pow_le_mono_r; lia).
    change (256 ^ 4) with (2 ^ 32) in *.
    unfold wrapU32 in Hv. rewrite Z.mod_small in Hv by lia.
    subst v rest.
    pose proof (bytesOf_bigEndian (take n p)) as Hback.
    rewrite length_take, Nat.min_l in Hback by lia.
    rewrite Hback. symmetry. apply take_drop.
  - pose proof (proj2 (fetchLoop_none n 0 p) Hlt) as Hnone.
    unfold fetch in Hf. rewrite Nat2Z.id in Hf. congruence.
Qed.

Lemma fetch_bytesOf_roundtrip_witness :
  (3 ≤ 4)%nat ∧ 0 ≤ 0x0a0b0c < 256 ^ Z.of_nat 3 ∧
  fetch (bytesOf 3 0x0a0b0c ++ [Byte.xff]) (Z.of_nat 3)
  = Some (0x0a0b0c, [Byte.xff]).
Proof.
  assert (H1 : (3 ≤ 4)%nat) by lia.
  assert (H2 : 0 ≤ 0x0a0b0c < 256 ^ Z.of_nat 3) by (simpl; lia).
  split; [exact H1|]. split; [exact H2|].
  exact (proj1 (fetch_bytesOf_roundtrip 3 0x0a0b0c [] [Byte.xff] H1) H2).
Defined.

Lemma fetch_one b p : fetch (b :: p) 1 = Some (byteValue b, p).
Proof.
  unfold fetch. simpl. unfold wrapU32. simpl.
  pose proof (byteValue_bound b). reflexivity.
Qed.

Lemma fetch_some p n v p' :
  fetch p n = Some (v, p') → p' = drop (Z.to_nat n) p.
Proof.
  intros H.
  destruct (le_lt_dec (Z.to_nat n) (length p)) as [Hle|Hlt].
  - unfold fetch in H. rewrite fetchLoop_value in H by lia. congruence.
  - pose proof (proj2 (fetchLoop_none (Z.to_nat n) 0 p) Hlt) as Hn.
    unfold fetch in H. congruence.
Qed.

Lemma parseItems_round fuel b p printed :
  parseItems (S fuel) (b :: p) printed
  = match fetch p (Z.land (byteValue b) 3) with
    | None => (printed, ParseAssert)
    | Some (data, p2) =>
        match classify (Z.land (byteValue b) 252) with
        | Some kind => parseItems fuel p2 (printed ++ [(kind, data)])
        | None => (printed, ParseAbort (Z.land (byteValue b) 252))
        end
    end.
Proof.
  change (parseItems (S fuel) (b :: p) printed)
    with (match fetch (b :: p) 1 with
          | None => (printed, ParseAssert)
          | Some (token, p1) =>
              match fetch p1 (Z.land token 3) with
              | None => (printed, ParseAssert)
              | Some (data, p2) =>
                  match classify (Z.land token 252) with
                  | Some kind =>
                      parseItems fuel p2 (printed ++ [(kind, data)])
                  | None => (printed, ParseAbort (Z.land token 252))
                  end
              end
          end).
  rewrite fetch_one. reflexivity.
Qed.

(** The fuel does not matter once it covers the buffer, and it never
    runs out then. *)
Lemma parseItems_fuel fuel fuel' p printed :
  (length p ≤ fuel)%nat → (length p ≤ fuel')%nat →
  parseItems fuel p printed = parseItems fuel' p printed ∧
  snd (parseItems fuel p printed) ≠ ParseOutOfFuel.
Proof.
  revert fuel' p printed.
  induction fuel as [|fuel IH]; intros fuel' p printed Hf Hf'.
  - destruct p; [|simpl in Hf; lia]. destruct fuel'; simpl; split; congruence.
  - destruct p as [|b p]; [destruct fuel'; simpl; split; congruence|].
    destruct fuel' as [|fuel']; [simpl in Hf'; lia|].
    simpl in Hf, Hf'.
    rewrite !parseItems_round.
    destruct (fetch p (Z.land (byteValue b) 3)) as [[data p2]|] eqn:Hd;
      [|split; [reflexivity|discriminate]].
    apply fetch_some in Hd.
    destruct (classify (Z.land (byteValue b) 252));
      [|split; [reflexivity|discriminate]].
    assert (length p2 ≤ length p)%nat by (subst p2; rewrite length_drop; lia).
    apply IH; lia.
Qed.

Lemma token_fields kind size :
  (size ≤ 3)%nat →
  0 ≤ Z.lor (itemTag kind) (Z.of_nat size) < 256 ∧
  Z.land (Z.lor (itemTag kind) (Z.of_nat size)) 3 = Z.of_nat size ∧
  classify (Z.land (Z.lor (itemTag kind) (Z.of_nat size)) 252) = Some kind.
Proof.
  intros Hs.
  destruct size as [|[|[|[|size]]]]; [| | | |lia];
    destruct kind; vm_compute; repeat split; congruence.
Qed.

(** One well-formed item is read in one round. *)
Lemma parseItems_item fuel i rest printed :
  itemFits i →
  parseItems (S fuel)
    (itemBytes (fst (fst i)) (snd (fst i)) (snd i) ++ rest) printed
  = parseItems fuel rest (printed ++ [itemPrinted i]).
Proof.
  destruct i as [[kind size] data]. unfold itemFits, itemPrinted.
  cbn [fst snd]. intros [Hs Hd].
  destruct (token_fields kind size Hs) as (Hb & Hsize & Hkind).
  change (itemBytes kind size data ++ rest)
    with (byteOf (Z.lor (itemTag kind) (Z.of_nat size))
          :: (bytesOf size data ++ rest)).
  rewrite parseItems_round.
  rewrite byteValue_byteOf by assumption.
  rewrite Hsize, Hkind.
  rewrite fetch_bytesOf by (try lia; assumption).
  reflexivity.
Qed.

Lemma encodeItems_cons i items :
  encodeItems (i :: items)
  = itemBytes (fst (fst i)) (snd (fst i)) (snd i) ++ encodeItems items.
Proof. reflexivity. Qed.

Lemma length_encodeItems items :
  (length items ≤ length (encodeItems items))%nat.
Proof.
  induction items as [|i items IH]; [simpl; lia|].
  rewrite encodeItems_cons, length_app. unfold itemBytes. simpl. lia.
Qed.

(** Well-formed items are read one per round, and the loop goes on with
    what follows them. *)
Lemma parseItems_encoded items :
  Forall itemFits items →
  ∀ fuel rest printed,
    parseItems (length items + fuel) (encodeItems items ++ rest) printed
    = parseItems fuel rest (printed ++ map itemPrinted items).
Proof.
  induction 1 as [|i items Hi _ IH]; intros fuel rest printed.
  - simpl. rewrite app_nil_r. reflexivity.
  - rewrite encodeItems_cons, <- app_assoc. simpl length. simpl Nat.add.
    rewrite (parseItems_item _ i) by assumption.
    rewrite IH. simpl map. rewrite <- app_assoc. reflexivity.
Qed.

(** X3.  A report descriptor made of items the parser knows, each with a
    size code of at most 3 and data that fits it, is parsed to its end:
    every item is printed with its kind and its data, in order, and
    neither an assertion fails nor [abort()] is called. *)
Theorem parseReportDescriptor_roundtrip (items : list (ItemKind * nat * Z)) :
  Forall itemFits items →
  parseReportDescriptor (encodeItems items)
  = (map itemPrinted items, ParseDone).
Proof.
  intros Hfit. unfold parseReportDescriptor.
  pose proof (length_encodeItems items) as Hlen.
  replace (length (encodeItems items))
    with (length items + (length (encodeItems items) - length items))%nat
    by lia.
  rewrite <- (app_nil_r (encodeItems items)) at 2.
  rewrite parseItems_encoded by assumption.
  destruct (length (encodeItems items) - length items)%nat; reflexivity.
Qed.

Lemma parseReportDescriptor_roundtrip_witness :
  Forall itemFits [(UsagePage, 1%nat, 1); (Usage, 1%nat, 6);
                   (Collection, 1%nat, 1); (LogicalMaximum, 2%nat, 0x00ff);
                   (EndCollection, 0%nat, 0)] ∧
  parseReportDescriptor
    (encodeItems [(UsagePage, 1%nat, 1); (Usage, 1%nat, 6);
                  (Collection, 1%nat, 1); (LogicalMaximum, 2%nat, 0x00ff);
                  (EndCollection, 0%nat, 0)])
  = (map itemPrinted [(UsagePage, 1%nat, 1); (Usage, 1%nat, 6);
                      (Collection, 1%nat, 1); (LogicalMaximum, 2%nat, 0x00ff);
                      (EndCollection, 0%nat, 0)], ParseDone).
Proof.
  assert (H : Forall itemFits
                [(UsagePage, 1%nat, 1); (Usage, 1%nat, 6);
                 (Collection, 1%nat, 1); (LogicalMaximum, 2%nat, 0x00ff);
                 (EndCollection, 0%nat, 0)])
    by (repeat constructor; simpl; lia).
  split; [exact H|].
  exact (parseReportDescriptor_roundtrip _ H).
Defined.

(** X4.  After items it knows, the parser stops at the first item it
    cannot take, with the items before it printed: when fewer data
    bytes are left than the token's size code asks for, an assertion of
    [fetch] fails, whatever the tag; when the data is there and the tag
    is none of the known ones, [abort()] is called with the tag. *)
Theorem parseReportDescriptor_stops_at_bad_item
    (items : list (ItemKind * nat * Z)) (token : Byte.byte)
    (more : list Byte.byte) :
  Forall itemFits items →
  ((length more < Z.to_nat (Z.land (byteValue token) 3))%nat →
     parseReportDescriptor (encodeItems items ++ token :: more)
     = (map itemPrinted items, ParseAssert)) ∧
  ((Z.to_nat (Z.land (byteValue token) 3) ≤ length more)%nat →
   classify (Z.land (byteValue token) 252) = None →
     parseReportDescriptor (encodeItems items ++ token :: more)
     = (map itemPrinted items,
        ParseAbort (Z.land (byteValue token) 252))).
Proof.
  intros Hfit. unfold parseReportDescriptor.
  pose proof (length_encodeItems items) as Hlen.
  assert (Hfuel : length (encodeItems items ++ token :: more)
                  = (length items
                     + S (length (encodeItems items) - length items
                          + length more))%nat)
    by (rewrite length_app; simpl; lia).
  rewrite Hfuel, parseItems_encoded, parseItems_round by assumption.
  simpl app. split.
  - intros Hshort.
    pose proof (proj2 (fetchLoop_none _ 0 more) Hshort) as Hnone.
    unfold fetch. rewrite Hnone. reflexivity.
  - intros Henough Hunknown.
    unfold fetch. rewrite fetchLoop_value by (try lia; assumption).
    rewrite Hunknown. reflexivity.
Qed.

Lemma parseReportDescriptor_stops_at_bad_item_witness :
  Forall itemFits [(Usage, 1%nat, 6)] ∧
  (length [Byte.x01] < Z.to_nat (Z.land (byteValue Byte.x96) 3))%nat ∧
  parseReportDescriptor (encodeItems [(Usage, 1%nat, 6)]
                         ++ Byte.x96 :: [Byte.x01])
  = (map itemPrinted [(Usage, 1%nat, 6)], ParseAssert) ∧
  (Z.to_nat (Z.land (byteValue Byte.x00) 3) ≤ length [Byte.x01])%nat ∧
  classify (Z.land (byteValue Byte.x00) 252) = None ∧
  parseReportDescriptor (encodeItems [(Usage, 1%nat, 6)]
                         ++ Byte.x00 :: [Byte.x01])
  = (map itemPrinted [(Usage, 1%nat, 6)],
     ParseAbort (Z.land (byteValue Byte.x00) 252)).
Proof.
  assert (H : Forall itemFits [(Usage, 1%nat, 6)])
    by (repeat constructor; simpl; lia).
  assert (H1 : (length [Byte.x01]
                < Z.to_nat (Z.land (byteValue Byte.x96) 3))%nat)
    by (vm_compute; lia).
  assert (H2 : (Z.to_nat (Z.land (byteValue Byte.x00) 3)
                ≤ length [Byte.x01])%nat) by (vm_compute; lia).
  assert (H3 : classify (Z.land (byteValue Byte.x00) 252) = None)
    by reflexivity.
  split; [exact H|]. split; [exact H1|].
  split; [exact (proj1 (parseReportDescriptor_stops_at_bad_item
                          [(Usage, 1%nat, 6)] Byte.x96 [Byte.x01] H) H1)|].
  split; [exact H2|]. split; [exact H3|].
  exact (proj2 (parseReportDescriptor_stops_at_bad_item
                  [(Usage, 1%nat, 6)] Byte.x00 [Byte.x01] H) H2 H3).
Defined.

(** The parser, run on a keyboard-like descriptor head. *)
Example parse_three_items :
  parseReportDescriptor
    [Byte.x05; Byte.x01; Byte.x09; Byte.x06; Byte.xa1; Byte.x01; Byte.xc0]
  = ([(UsagePage, 1); (Usage, 6); (Collection, 1); (EndCollection, 0)],
     ParseDone).
Proof. reflexivity. Qed.

End UhciParseFacts.

(** ** The UHCI driver: building a control transfer *)

Module UhciQueueFacts.
Import Machine MachineFacts Uhci.

Section Packets.

Variables wLength max_size : Z.
Hypothesis Hw : 0 ≤ wLength.
Hypothesis Hm : 0 < max_size.
Hypothesis Hfits : wLength + max_size ≤ 2 ^ 64.

(** The number of data packets is the length divided by the packet
    size, rounded up. *)
Lemma numTransfers_ceiling :
  0 ≤ numTransfers wLength max_size ∧
  numTransfers wLength max_size * max_size - max_size < wLength
  ≤ numTransfers wLength max_size * max_size.
Proof.
  unfold numTransfers. rewrite wrapU64_small by lia.
  pose proof (Z.div_mod (wLength + max_size - 1) max_size ltac:(lia)) as Hd.
  pose proof (Z.mod_pos_bound (wLength + max_size - 1) max_size Hm) as Hr.
  assert (0 ≤ (wLength + max_size - 1) / max_size)
    by (apply Z.div_pos; lia).
  nia.
Qed.

(** The loop, from round [i] with the bytes of the rounds before it
    placed, makes the descriptors of rounds [i], [i + 1], ... *)
Lemma dataStage_rounds flags address endpoint count i :
  0 ≤ i → i + Z.of_nat count ≤ numTransfers wLength max_size →
  ∀ j, (j < count)%nat →
    dataStage count i (Z.min (i * max_size) wLength)
      flags address endpoint wLength max_size !! j
    = Some (dataDescriptorAt wLength max_size flags address endpoint
              (i + Z.of_nat j)).
Proof.
  destruct numTransfers_ceiling as (_ & Hlow & _).
  revert i. induction count as [|count IH]; intros i Hi Hn j Hj; [lia|].
  assert (Hbelow : i * max_size < wLength) by nia.
  simpl dataStage.
  rewrite (Z.min_l (i * max_size)) by lia.
  rewrite (wrapU64_small (wLength - i * max_size)) by nia.
  destruct j as [|j].
  - simpl. unfold dataDescriptorAt. rewrite Z.add_0_r. reflexivity.
  - simpl lookup.
    replace (wrapU64 (i * max_size
                      + Z.min max_size (wLength - i * max_size)))
      with (Z.min ((i + 1) * max_size) wLength)
      by (rewrite wrapU64_small by lia; lia).
    rewrite IH by lia. f_equal. f_equal. lia.
Qed.

Lemma dataStage_length flags address endpoint count i progress :
  length (dataStage count i progress flags address endpoint
            wLength max_size) = count.
Proof.
  revert i progress. induction count as [|count IH]; intros i progress;
    simpl; [reflexivity|]. rewrite IH. reflexivity.
Qed.

Lemma dataStage_total flags address endpoint count i :
  0 ≤ i → i + Z.of_nat count ≤ numTransfers wLength max_size →
  totalLength (dataStage count i (Z.min (i * max_size) wLength)
                 flags address endpoint wLength max_size)
  = Z.min ((i + Z.of_nat count) * max_size) wLength
    - Z.min (i * max_size) wLength.
Proof.
  destruct numTransfers_ceiling as (_ & Hlow & _).
  revert i. induction count as [|count IH]; intros i Hi Hn.
  - simpl. rewrite Z.add_0_r. lia.
  - assert (Hbelow : i * max_size < wLength) by nia.
    simpl dataStage. unfold totalLength. simpl fold_right.
    fold (totalLength
            (dataStage count (i + 1)
               (wrapU64 (Z.min (i * max_size) wLength
                         + Z.min max_size
                             (wrapU64 (wLength
                                       - Z.min (i * max_size) wLength))))
               flags address endpoint wLength max_size)).
    rewrite (Z.min_l (i * max_size)) by lia.
    rewrite (wrapU64_small (wLength - i * max_size)) by nia.
    replace (wrapU64 (i * max_size
                      + Z.min max_size (wLength - i * max_size)))
      with (Z.min ((i + 1) * max_size) wLength)
      by (rewrite wrapU64_small by lia; lia).
    rewrite IH by lia. lia.
Qed.

(** X5.  The data stage of a control transfer covers the caller's buffer
    exactly once, in order: there are [wLength / max_size] rounded up
    data descriptors; the [j]-th starts at byte [j * max_size] and moves
    the bytes left up to [max_size], at least one; its toggle is
    [kData0] for even [j] and [kData1] for odd [j]; and the lengths add
    up to [wLength]. *)
Theorem dataStage_covers_buffer (flags address endpoint : Z) :
  let tds := dataDescriptors wLength max_size flags address endpoint in
  Z.of_nat (length tds) = numTransfers wLength max_size ∧
  numTransfers wLength max_size * max_size - max_size < wLength
  ≤ numTransfers wLength max_size * max_size ∧
  (∀ j td, tds !! j = Some td →
     td = dataDescriptorAt wLength max_size flags address endpoint
            (Z.of_nat j) ∧
     td_buffer td = DataBuffer (Z.of_nat j * max_size) ∧
     0 < td_length td ≤ max_size ∧
     Z.of_nat j * max_size + td_length td
     = Z.min ((Z.of_nat j + 1) * max_size) wLength) ∧
  totalLength tds = wLength.
Proof.
  intros tds. subst tds. unfold dataDescriptors.
  destruct numTransfers_ceiling as (Hn & Hlow & Hhigh).
  assert (H0 : Z.min (0 * max_size) wLength = 0) by lia.
  split; [rewrite dataStage_length; lia|].
  split; [lia|]. split.
  - intros j td Hj.
    assert (Hlt : (j < Z.to_nat (numTransfers wLength max_size))%nat).
    { apply lookup_lt_Some in Hj. rewrite dataStage_length in Hj. lia. }
    pose proof (dataStage_rounds flags address endpoint
                  (Z.to_nat (numTransfers wLength max_size)) 0
                  ltac:(lia) ltac:(lia) j Hlt) as Hround.
    rewrite H0 in Hround. rewrite Hround in Hj.
    injection Hj as <-. simpl.
    assert (Z.of_nat j * max_size < wLength) by nia.
    repeat split; lia.
  - pose proof (dataStage_total flags address endpoint
                  (Z.to_nat (numTransfers wLength max_size)) 0
                  ltac:(lia) ltac:(lia)) as Htotal.
    rewrite H0 in Htotal. rewrite Htotal. lia.
Qed.

(** X6.  [buildQueue] fails its assertion exactly when the flags name no
    direction.  Otherwise [_transfers] holds the setup descriptor, the
    data descriptors and the status descriptor, in this order; every
    descriptor is for the same device address and endpoint and links to
    the next one of the array, the status descriptor to none; the
    status descriptor moves no bytes, with toggle [kData0], against the
    direction of the data stage. *)
Theorem buildQueue_chains_stages
    (sizeofSetupPacket flags address endpoint : Z) :
  let n := numTransfers wLength max_size in
  (toDevice flags || toHost flags = false →
     buildQueue sizeofSetupPacket flags address endpoint wLength max_size
     = None) ∧
  (toDevice flags || toHost flags = true →
     ∃ tds,
       buildQueue sizeofSetupPacket flags address endpoint wLength max_size
       = Some tds ∧
       Z.of_nat (length tds) = n + 2 ∧
       tds !! O
       = Some (mkTransferDescriptor kPacketSetup kData0 address endpoint
                 sizeofSetupPacket SetupBuffer (Some 1)) ∧
       tds !! Z.to_nat (n + 1)
       = Some (mkTransferDescriptor
                 (if toDevice flags then kPacketIn else kPacketOut)
                 kData0 address endpoint 0 NoBuffer None) ∧
       (∀ j td, tds !! S j = Some td → Z.of_nat j < n →
          td = dataDescriptorAt wLength max_size flags address endpoint
                 (Z.of_nat j)) ∧
       (∀ k td, tds !! k = Some td →
          td_address td = address ∧ td_endpoint td = endpoint ∧
          td_link td
          = if Z.of_nat k <? n + 1 then Some (Z.of_nat k + 1) else None)).
Proof.
  intros n. subst n. unfold buildQueue.
  destruct numTransfers_ceiling as (Hn & _ & _).
  set (n := numTransfers wLength max_size) in *.
  assert (H0 : Z.min (0 * max_size) wLength = 0) by lia.
  assert (Hdata : ∀ j, (j < Z.to_nat n)%nat →
            dataStage (Z.to_nat n) 0 0 flags address endpoint
              wLength max_size !! j
            = Some (dataDescriptorAt wLength max_size flags address
                      endpoint (Z.of_nat j))).
  { intros j Hj.
    pose proof (dataStage_rounds flags address endpoint (Z.to_nat n) 0
                  ltac:(lia) ltac:(lia) j Hj) as Hround.
    rewrite H0 in Hround. exact Hround. }
  pose proof (dataStage_length flags address endpoint (Z.to_nat n) 0 0)
    as Hlen.
  split; [intros ->; reflexivity|].
  intros ->. eexists. split; [reflexivity|].
  split; [simpl; rewrite length_app, Hlen; simpl; lia|].
  split; [reflexivity|]. split; [|split].
  - replace (Z.to_nat (n + 1)) with (S (Z.to_nat n)) by lia.
    simpl lookup. rewrite lookup_app_r by lia.
    rewrite Hlen, Nat.sub_diag. reflexivity.
  - intros j td Hj Hlt. simpl in Hj.
    rewrite lookup_app_l, Hdata in Hj by lia. congruence.
  - intros k td Hk. destruct k as [|k].
    + injection Hk as <-. simpl.
      destruct (Z.ltb_spec (Z.of_nat 0) (n + 1)); [repeat split|simpl in *; lia].
    + simpl in Hk.
      destruct (le_lt_dec (Z.to_nat n) k) as [Hge|Hlt].
      * rewrite lookup_app_r in Hk by lia. rewrite Hlen in Hk.
        destruct (k - Z.to_nat n)%nat eqn:Hd; [|discriminate].
        injection Hk as <-. simpl.
        destruct (Z.ltb_spec (Z.of_nat (S k)) (n + 1)); [lia|repeat split].
      * rewrite lookup_app_l, Hdata in Hk by lia.
        injection Hk as <-. simpl.
        destruct (Z.ltb_spec (Z.of_nat (S k)) (n + 1)); [|lia].
        repeat split. f_equal. lia.
Qed.

End Packets.

Lemma dataStage_covers_buffer_witness :
  0 ≤ 18 ∧ 0 < 8 ∧ 18 + 8 ≤ 2 ^ 64 ∧
  map td_length (dataDescriptors 18 8 kXferToHost 1 0) = [8; 8; 2] ∧
  totalLength (dataDescriptors 18 8 kXferToHost 1 0) = 18.
Proof.
  assert (H1 : 0 ≤ 18) by lia.
  assert (H2 : 0 < 8) by lia.
  assert (H3 : 18 + 8 ≤ 2 ^ 64) by lia.
  split; [exact H1|]. split; [exact H2|]. split; [exact H3|].
  split; [reflexivity|].
  exact (proj2 (proj2 (proj2
           (dataStage_covers_buffer 18 8 H1 H2 H3 kXferToHost 1 0)))).
Defined.

Lemma buildQueue_chains_stages_witness :
  0 ≤ 18 ∧ 0 < 8 ∧ 18 + 8 ≤ 2 ^ 64 ∧
  toDevice kXferToHost || toHost kXferToHost = true ∧
  ∃ tds, buildQueue 8 kXferToHost 1 0 18 8 = Some tds ∧
         Z.of_nat (length tds) = numTransfers 18 8 + 2.
Proof.
  assert (H1 : 0 ≤ 18) by lia.
  assert (H2 : 0 < 8) by lia.
  assert (H3 : 18 + 8 ≤ 2 ^ 64) by lia.
  assert (H4 : toDevice kXferToHost || toHost kXferToHost = true)
    by reflexivity.
  split; [exact H1|]. split; [exact H2|]. split; [exact H3|].
  split; [exact H4|].
  destruct (proj2 (buildQueue_chains_stages 18 8 H1 H2 H3 8 kXferToHost 1 0)
              H4) as (tds & Hb & Hl & _).
  exists tds. split; [exact Hb|exact Hl].
Defined.

(** A read of 18 bytes with packets of 8, built. *)
Example buildQueue_get_descriptor :
  buildQueue 8 kXferToHost 1 0 18 8
  = Some
      [mkTransferDescriptor kPacketSetup kData0 1 0 8 SetupBuffer (Some 1);
       mkTransferDescriptor kPacketIn kData0 1 0 8 (DataBuffer 0) (Some 2);
       mkTransferDescriptor kPacketIn kData1 1 0 8 (DataBuffer 8) (Some 3);
       mkTransferDescriptor kPacketIn kData0 1 0 2 (DataBuffer 16) (Some 4);
       mkTransferDescriptor kPacketOut kData0 1 0 0 NoBuffer None] ∧
  buildQueue 8 0 1 0 18 8 = None.
Proof. split; reflexivity. Qed.

End UhciQueueFacts.

(** ** The UHCI driver: progress of transfers and the schedule *)

Module UhciScheduleFacts.
Import Machine Uhci.

Lemma progressFrom_spec l c :
  (c ≤ fst (progressFrom l c) ≤ c + length l)%nat ∧
  (∀ k, (k < fst (progressFrom l c) - c)%nat →
     ∃ s, l !! k = Some s ∧ isActive s = false ∧ isAnyError s = false) ∧
  match snd (progressFrom l c) with
  | Pending =>
      ∃ s, l !! (fst (progressFrom l c) - c)%nat = Some s ∧
           isActive s = true
  | Failed =>
      ∃ s, l !! (fst (progressFrom l c) - c)%nat = Some s ∧
           isActive s = false ∧ isAnyError s = true
  | Completed => fst (progressFrom l c) = (c + length l)%nat
  end ∧
  progressFrom (drop (fst (progressFrom l c) - c) l) (fst (progressFrom l c))
  = progressFrom l c.
Proof.
  revert c. induction l as [|s l IH]; intros c.
  - simpl. rewrite Nat.sub_diag. simpl.
    split; [lia|]. split; [intros k Hk; lia|]. split; [lia|reflexivity].
  - simpl progressFrom.
    destruct (isActive s) eqn:Ha; [|destruct (isAnyError s) eqn:He].
    + simpl. rewrite Nat.sub_diag. simpl. rewrite Ha.
      split; [lia|]. split; [intros k Hk; lia|]. split; [eauto|reflexivity].
    + simpl. rewrite Nat.sub_diag. simpl. rewrite Ha, He.
      split; [lia|]. split; [intros k Hk; lia|]. split; [eauto|reflexivity].
    + destruct (IH (S c)) as ((Hlo & Hhi) & Hret & Hres & Hidem).
      set (r := progressFrom l (S c)) in *.
      assert (Hsub : (fst r - c = S (fst r - S c))%nat) by lia.
      split; [simpl; lia|]. split; [|split].
      * intros k Hk. destruct k as [|k]; [simpl; eauto|].
        simpl. apply Hret. lia.
      * rewrite Hsub. simpl lookup.
        destruct (snd r); [exact Hres|exact Hres|simpl; lia].
      * rewrite Hsub. simpl drop. exact Hidem.
Qed.

(** X7.  [progress] moves [_completeCounter] forward over descriptors
    that are neither active nor in error, and never back.  It returns
    false at an active descriptor, whatever its error bits, and true
    without the callback at an inactive one in error.  It runs the
    callback only when no descriptor is left from the counter on.
    Called again on the same statuses it stops at the same descriptor
    with the same result. *)
Theorem progress_retires_in_order (statuses : list TdStatus) (counter : nat) :
  (counter ≤ length statuses)%nat →
  let counter' := fst (progress statuses counter) in
  (counter ≤ counter' ≤ length statuses)%nat ∧
  (∀ k, (counter ≤ k < counter')%nat →
     ∃ s, statuses !! k = Some s ∧
          isActive s = false ∧ isAnyError s = false) ∧
  match snd (progress statuses counter) with
  | Pending => ∃ s, statuses !! counter' = Some s ∧ isActive s = true
  | Failed =>
      ∃ s, statuses !! counter' = Some s ∧
           isActive s = false ∧ isAnyError s = true
  | Completed => counter' = length statuses
  end ∧
  progress statuses counter' = progress statuses counter.
Proof.
  intros Hc counter'. subst counter'. unfold progress.
  destruct (progressFrom_spec (drop counter statuses) counter)
    as ((Hlo & Hhi) & Hret & Hres & Hidem).
  set (r := progressFrom (drop counter statuses) counter) in *.
  rewrite length_drop in Hhi.
  split; [lia|]. split; [|split].
  - intros k Hk. destruct (Hret (k - counter)%nat ltac:(lia))
      as (s & Hs & Hok).
    rewrite lookup_drop in Hs.
    replace (counter + (k - counter))%nat with k in Hs by lia. eauto.
  - destruct (snd r).
    + destruct Hres as (s & Hs & Hok). rewrite lookup_drop in Hs.
      replace (counter + (fst r - counter))%nat with (fst r) in Hs by lia.
      eauto.
    + destruct Hres as (s & Hs & Hok). rewrite lookup_drop in Hs.
      replace (counter + (fst r - counter))%nat with (fst r) in Hs by lia.
      eauto.
    + rewrite length_drop in Hres. lia.
  - rewrite drop_drop in Hidem.
    replace (counter + (fst r - counter))%nat with (fst r) in Hidem by lia.
    exact Hidem.
Qed.

Lemma progress_retires_in_order_witness :
  (1 ≤ length [mkTdStatus false false; mkTdStatus false false;
               mkTdStatus true true; mkTdStatus false false])%nat ∧
  progress [mkTdStatus false false; mkTdStatus false false;
            mkTdStatus true true; mkTdStatus false false] 1
  = (2%nat, Pending) ∧
  progress [mkTdStatus false false; mkTdStatus false false;
            mkTdStatus true true; mkTdStatus false false]
    (fst (progress [mkTdStatus false false; mkTdStatus false false;
                    mkTdStatus true true; mkTdStatus false false] 1))
  = progress [mkTdStatus false false; mkTdStatus false false;
              mkTdStatus true true; mkTdStatus false false] 1.
Proof.
  assert (H : (1 ≤ length [mkTdStatus false false; mkTdStatus false false;
                           mkTdStatus true true;
                           mkTdStatus false false])%nat) by (simpl; lia).
  split; [exact H|]. split; [reflexivity|].
  exact (proj2 (proj2 (proj2 (progress_retires_in_order _ 1%nat H)))).
Defined.

(** *** The schedule list and the queue heads the controller walks *)

Lemma chained_headOf link l : chained link l → link = headOf l.
Proof. destruct l; simpl; [auto|]. intros [-> _]. reflexivity. Qed.

Lemma chained_from_head link l : chained link l → chained (headOf l) l.
Proof. intros H. rewrite <- (chained_headOf link l H). exact H. Qed.

(** Linking a new transaction after the last one. *)
Lemma chained_append before last tx link :
  t_linkPointer tx = None →
  chained link (before ++ [last]) →
  chained link (before ++ [linkNext (head tx) last; tx]).
Proof.
  intros Htx. revert link. induction before as [|t before IH]; intros link.
  - simpl. intros [-> _]. auto.
  - simpl. intros [-> H]. split; [reflexivity|]. apply IH, H.
Qed.

(** Linking the transaction before an erased one to the one after it. *)
Lemma chained_bypass before prev t rest link :
  chained link (before ++ prev :: t :: rest) →
  chained link (before ++ linkNext (headOf rest) prev :: rest).
Proof.
  revert link. induction before as [|b before IH]; intros link.
  - simpl. intros (-> & _ & H). split; [reflexivity|].
    apply (chained_from_head _ _ H).
  - simpl. intros [-> H]. split; [reflexivity|]. apply IH, H.
Qed.

Lemma alter_last {A} (f : A → A) (before : list A) x :
  alter f (length (before ++ [x]) - 1)%nat (before ++ [x]) = before ++ [f x].
Proof.
  rewrite length_app, Nat.add_sub. simpl.
  induction before as [|b before IH]; [reflexivity|].
  simpl. f_equal. exact IH.
Qed.

Lemma transfer_snoc init before last queue statuses :
  transfer (mkController init (before ++ [last])) queue statuses
  = mkController init
      (before ++ [linkNext (Some queue) last;
                  mkTransaction queue None statuses 0]).
Proof.
  unfold transfer. cbn [scheduleList initialLink].
  destruct (before ++ [last]) as [|t l] eqn:Hl;
    [destruct before; discriminate|].
  rewrite <- Hl, alter_last, <- app_assoc. reflexivity.
Qed.

(** X8.  [Controller::transfer] keeps the hardware schedule and the
    driver's list in step: if the queue heads reachable from
    [_initialQh] were those of [scheduleList], in order, they still are
    after the new transaction has been linked and pushed, and the new
    queue head is the last of them. *)
Theorem transfer_keeps_schedule_linked (c : Controller) (queue : QueueId)
    (statuses : list TdStatus) :
  mirrors c →
  mirrors (transfer c queue statuses) ∧
  queues (scheduleList (transfer c queue statuses))
  = queues (scheduleList c) ++ [queue].
Proof.
  destruct c as [init l]. unfold mirrors. cbn [scheduleList initialLink].
  destruct l as [|last before _] using rev_ind; intros Hc.
  - simpl. auto.
  - rewrite transfer_snoc. cbn [scheduleList initialLink]. split.
    + apply (chained_append before last (mkTransaction queue None statuses 0));
        [reflexivity|exact Hc].
    + unfold queues. rewrite !map_app. simpl. rewrite <- app_assoc.
      reflexivity.
Qed.

Lemma transfer_keeps_schedule_linked_witness :
  mirrors (mkController None []) ∧
  mirrors (transfer (mkController None []) 5%N []) ∧
  queues (scheduleList (transfer (mkController None []) 5%N []))
  = queues (scheduleList (mkController None [])) ++ [5%N].
Proof.
  assert (H : mirrors (mkController None [])) by reflexivity.
  split; [exact H|].
  exact (transfer_keeps_schedule_linked (mkController None []) 5%N [] H).
Defined.

(** Erasing the transaction after [before]: what is left of the list,
    and that it is linked when the list was. *)
Lemma erase_split init before t rest :
  ∃ init' before',
    erase (mkController init (before ++ t :: rest)) (length before)
    = mkController init' (before' ++ rest) ∧
    queues before' = queues before ∧
    length before' = length before ∧
    (chained init (before ++ t :: rest) → chained init' (before' ++ rest)).
Proof.
  destruct before as [|prev before _] using rev_ind.
  - exists (headOf rest), []. simpl. unfold erase. simpl.
    split; [destruct rest; reflexivity|].
    split; [reflexivity|]. split; [reflexivity|].
    intros [_ Hc]. apply (chained_from_head _ _ Hc).
  - exists init, (before ++ [linkNext (headOf rest) prev]).
    split; [|split; [|split]].
    + rewrite length_app, Nat.add_1_r. unfold erase.
      cbn [scheduleList initialLink]. f_equal.
      rewrite <- !app_assoc. simpl.
      assert (Hnext : (before ++ prev :: t :: rest) !! S (S (length before))
                      = rest !! O).
      { clear. induction before as [|b before IH]; [reflexivity|exact IH]. }
      rewrite Hnext.
      replace (match rest !! O with
               | Some next => head next
               | None => None
               end) with (headOf rest) by (destruct rest; reflexivity).
      generalize (linkNext (headOf rest)). intros f. clear.
      induction before as [|b before IH]; [reflexivity|].
      simpl. f_equal. exact IH.
    + unfold queues. rewrite !map_app. reflexivity.
    + rewrite !length_app. reflexivity.
    + rewrite <- !app_assoc. simpl. apply chained_bypass.
Qed.

Lemma erase_at init l i t :
  l !! i = Some t →
  ∃ init' before',
    erase (mkController init l) i
    = mkController init' (before' ++ drop (S i) l) ∧
    queues before' = queues (take i l) ∧
    length before' = i ∧
    (chained init l → chained init' (before' ++ drop (S i) l)).
Proof.
  intros Ht.
  pose proof (take_drop_middle l i t Ht) as Hsplit.
  assert (Hlen : length (take i l) = i).
  { rewrite length_take. apply lookup_lt_Some in Ht. lia. }
  destruct (erase_split init (take i l) t (drop (S i) l))
    as (init' & before' & He & Hq & Hl & Hc).
  rewrite Hsplit, Hlen in He. rewrite Hsplit in Hc.
  exists init', before'. rewrite Hlen in Hl. auto.
Qed.

Lemma erase_mirrors c i :
  (i < length (scheduleList c))%nat → mirrors c → mirrors (erase c i).
Proof.
  destruct c as [init l]. unfold mirrors. cbn [scheduleList initialLink].
  intros Hi Hc. destruct (lookup_lt_is_Some_2 l i Hi) as [t Ht].
  destruct (erase_at init l i t Ht) as (init' & before' & -> & _ & _ & H).
  apply H, Hc.
Qed.

(** X9.  [Controller::erase] takes a transaction out of both the
    driver's list and the hardware schedule: if the queue heads
    reachable from [_initialQh] were those of [scheduleList], then after
    erasing the transaction at a position of the list they are those of
    the list without it, in the same order. *)
Theorem erase_keeps_schedule_linked (c : Controller) (i : nat) :
  mirrors c → (i < length (scheduleList c))%nat →
  mirrors (erase c i) ∧
  queues (scheduleList (erase c i)) = delete i (queues (scheduleList c)).
Proof.
  intros Hc Hi. split; [apply erase_mirrors; assumption|].
  destruct c as [init l]. cbn [scheduleList] in *.
  destruct (lookup_lt_is_Some_2 l i Hi) as [t Ht].
  destruct (erase_at init l i t Ht) as (init' & before' & -> & Hq & _ & _).
  cbn [scheduleList]. unfold queues in *. rewrite map_app, Hq.
  rewrite <- (take_drop_middle l i t Ht) at 3. rewrite map_app. simpl map.
  assert (Hlen : length (map t_queue (take i l)) = i).
  { rewrite length_map, length_take. lia. }
  rewrite <- Hlen at 3.
  generalize (map t_queue (take i l)). intros qs.
  induction qs as [|q qs IH]; [reflexivity|]. simpl. f_equal. exact IH.
Qed.

Lemma erase_keeps_schedule_linked_witness :
  let c := mkController (Some 5%N)
             [mkTransaction 5%N (Some 6%N) [] 0;
              mkTransaction 6%N (Some 7%N) [] 0;
              mkTransaction 7%N None [] 0] in
  mirrors c ∧ (1 < length (scheduleList c))%nat ∧
  mirrors (erase c 1) ∧
  queues (scheduleList (erase c 1)) = delete 1%nat (queues (scheduleList c)).
Proof.
  intros c.
  assert (Hc : mirrors c) by (repeat split).
  assert (Hi : (1 < length (scheduleList c))%nat) by (simpl; lia).
  split; [exact Hc|]. split; [exact Hi|].
  exact (erase_keeps_schedule_linked c 1 Hc Hi).
Defined.

(** *** The transfers loop of [onIrq] *)

Lemma transfer_mirrors c queue statuses :
  mirrors c → mirrors (transfer c queue statuses).
Proof.
  destruct c as [init l]. unfold mirrors. cbn [scheduleList initialLink].
  destruct l as [|last before _] using rev_ind; intros Hc.
  - simpl. auto.
  - rewrite transfer_snoc. cbn [scheduleList initialLink].
    apply (chained_append before last (mkTransaction queue None statuses 0));
      [reflexivity|exact Hc].
Qed.

Lemma transfer_length c queue statuses :
  length (scheduleList (transfer c queue statuses))
  = S (length (scheduleList c)).
Proof.
  destruct c as [init l]. unfold transfer. cbn [scheduleList].
  destruct l as [|t l]; [reflexivity|].
  cbn [scheduleList]. rewrite length_app, length_alter. simpl. lia.
Qed.

Lemma runCallback_mirrors submits q c :
  mirrors c → mirrors (runCallback submits q c).
Proof.
  unfold runCallback. generalize (submits q). intros l. revert c.
  induction l as [|s l IH]; intros c Hc; [exact Hc|].
  simpl. apply IH, transfer_mirrors, Hc.
Qed.

Lemma runCallback_length submits q c :
  (length (scheduleList c)
   ≤ length (scheduleList (runCallback submits q c)))%nat.
Proof.
  unfold runCallback. generalize (submits q). intros l. revert c.
  induction l as [|s l IH]; intros c; [reflexivity|].
  simpl. etransitivity; [|apply IH]. rewrite transfer_length. lia.
Qed.

(** Storing [_completeCounter] leaves the links as they are. *)
Lemma chained_counter link l i t counter :
  l !! i = Some t →
  chained link l →
  chained link
    (<[i := mkTransaction (t_queue t) (t_linkPointer t) (t_statuses t)
              counter]> l).
Proof.
  revert link i. induction l as [|u l IH]; intros link i Ht; [discriminate|].
  destruct i as [|i]; simpl in *.
  - injection Ht as ->. auto.
  - intros [-> H]. split; [reflexivity|]. apply IH; assumption.
Qed.

(** X10.  While [onIrq] processes the transfers, the hardware schedule
    stays in step with the driver's list: after any number of rounds of
    the loop, whatever the transactions' progress was and whatever
    transfers the completion callbacks have submitted in between, the
    queue heads reachable from [_initialQh] are those of
    [scheduleList], in order. *)
Theorem onIrq_keeps_schedule_linked (submits : Submits) (rounds i : nat)
    (c : Controller) (completed : list QueueId) :
  mirrors c → mirrors (fst (processTransfers submits rounds i c completed)).
Proof.
  revert i c completed.
  induction rounds as [|rounds IH]; intros i c completed Hc; [exact Hc|].
  cbn [processTransfers].
  destruct (scheduleList c !! i) as [t|] eqn:Ht; [|exact Hc].
  destruct (progress (t_statuses t) (t_completeCounter t))
    as [counter result].
  set (c' := mkController (initialLink c) _).
  assert (Hc' : mirrors c').
  { apply (chained_counter _ _ _ _ counter Ht), Hc. }
  assert (Hi : (i < length (scheduleList c'))%nat).
  { subst c'. cbn [scheduleList]. rewrite length_insert.
    apply lookup_lt_Some in Ht. exact Ht. }
  destruct result.
  - apply IH, Hc'.
  - apply IH, erase_mirrors; assumption.
  - apply IH, erase_mirrors.
    + eapply Nat.lt_le_trans; [exact Hi|apply runCallback_length].
    + apply runCallback_mirrors, Hc'.
Qed.

Lemma onIrq_keeps_schedule_linked_witness :
  let c := mkController (Some 5%N)
             [mkTransaction 5%N (Some 6%N) [mkTdStatus false false] 0;
              mkTransaction 6%N None [mkTdStatus true false] 0] in
  let submits : Submits :=
    fun q => if (q =? 5)%N then [(7%N, [mkTdStatus true false])] else [] in
  mirrors c ∧ mirrors (fst (processTransfers submits 3 0 c [])).
Proof.
  intros c submits.
  assert (Hc : mirrors c) by (repeat split).
  split; [exact Hc|].
  exact (onIrq_keeps_schedule_linked submits 3 0 c [] Hc).
Defined.

(** One round of the loop. *)
Lemma processTransfers_round submits rounds i c completed t counter result :
  scheduleList c !! i = Some t →
  progress (t_statuses t) (t_completeCounter t) = (counter, result) →
  processTransfers submits (S rounds) i c completed
  = let c' :=
      mkController (initialLink c)
        (<[i := mkTransaction (t_queue t) (t_linkPointer t) (t_statuses t)
                  counter]> (scheduleList c)) in
    match result with
    | Pending => processTransfers submits rounds (S i) c' completed
    | Failed => processTransfers submits rounds i (erase c' i) completed
    | Completed =>
        processTransfers submits rounds i
          (erase (runCallback submits (t_queue t) c') i)
          (completed ++ [t_queue t])
    end.
Proof. intros Ht Hp. cbn [processTransfers]. rewrite Ht, Hp. reflexivity. Qed.

(** One pass over the transactions from position [length before], when
    no callback submits a transfer. *)
Lemma processTransfers_pass submits rest :
  (∀ t, t ∈ rest → finishes t = true → submits (t_queue t) = []) →
  ∀ rounds init before completed,
    (length rest ≤ rounds)%nat →
    ∃ init' l',
      processTransfers submits rounds (length before)
        (mkController init (before ++ rest)) completed
      = (mkController init' l', completed ++ queues (filter finishes rest)) ∧
      queues l' = queues before ++ queues (filter stays rest).
Proof.
  induction rest as [|t rest IH]; intros Hquiet rounds init before completed Hr.
  - exists init, before. rewrite !app_nil_r.
    assert (Hend : processTransfers submits rounds (length before)
                     (mkController init before) completed
                   = (mkController init before, completed)).
    { destruct rounds; [reflexivity|]. cbn [processTransfers scheduleList].
      rewrite lookup_ge_None_2; [reflexivity|lia]. }
    rewrite Hend.
    split; [f_equal; symmetry; apply app_nil_r|reflexivity].
  - destruct rounds as [|rounds]; [simpl in Hr; lia|].
    simpl in Hr.
    assert (Hrest : ∀ u, u ∈ rest → finishes u = true →
                         submits (t_queue u) = []).
    { intros u Hu. apply Hquiet. right. exact Hu. }
    pose proof (Hquiet t (list_elem_of_here _ _)) as Ht.
    destruct (progress (t_statuses t) (t_completeCounter t))
      as [counter result] eqn:Hp.
    assert (Hs : stays t = negb (returnsTrue result)).
    { unfold stays, outcome. rewrite Hp. reflexivity. }
    assert (Hf : finishes t = match result with
                              | Completed => true
                              | _ => false
                              end).
    { unfold finishes, outcome. rewrite Hp. reflexivity. }
    rewrite (processTransfers_round submits rounds (length before) _
               completed t counter result)
      by (try exact Hp; cbn [scheduleList];
          apply list_lookup_middle; reflexivity).
    cbn [scheduleList initialLink].
    rewrite insert_app_r_alt by lia. rewrite Nat.sub_diag.
    cbn [insert list_insert].
    set (t' := mkTransaction _ _ _ counter).
    rewrite !filter_cons, Hs, Hf.
    destruct result; cbn [returnsTrue negb].
    + destruct (IH Hrest rounds init (before ++ [t']) completed
                  ltac:(lia)) as (init' & l' & He & Hq).
      rewrite length_app, Nat.add_1_r, <- app_assoc in He. simpl in He.
      exists init', l'. rewrite He.
      repeat first [rewrite decide_True by exact I
                   |rewrite decide_False by (intros [])].
      split; [reflexivity|].
      rewrite Hq. unfold queues. rewrite !map_app, <- app_assoc.
      reflexivity.
    + destruct (erase_split init before t' rest)
        as (init1 & before1 & -> & Hq1 & Hl1 & _).
      rewrite <- Hl1.
      destruct (IH Hrest rounds init1 before1 completed ltac:(lia))
        as (init' & l' & He & Hq).
      exists init', l'. rewrite He.
      repeat first [rewrite decide_True by exact I
                   |rewrite decide_False by (intros [])].
      split; [reflexivity|]. rewrite Hq, Hq1. reflexivity.
    + unfold runCallback. rewrite (Ht Hf). cbn [fold_left].
      destruct (erase_split init before t' rest)
        as (init1 & before1 & -> & Hq1 & Hl1 & _).
      rewrite <- Hl1.
      destruct (IH Hrest rounds init1 before1 (completed ++ [t_queue t])
                  ltac:(lia)) as (init' & l' & He & Hq).
      exists init', l'. rewrite He.
      repeat first [rewrite decide_True by exact I
                   |rewrite decide_False by (intros [])].
      split; [|rewrite Hq, Hq1; reflexivity].
      f_equal. rewrite <- app_assoc. reflexivity.
Qed.

(** X11.  A pass of [onIrq] over the schedule in which no completion
    callback submits a new transfer looks at every transaction once and
    then leaves the loop: on the list stay, in order, exactly the
    transactions whose next unfinished descriptor is still active;
    those that met an error and those that completed are erased; and
    the callbacks that ran are those of the completed ones, in list
    order.  More rounds than there are transactions change nothing. *)
Theorem onIrq_retires_finished_transfers (submits : Submits)
    (c : Controller) (rounds : nat) :
  (∀ t, t ∈ scheduleList c → finishes t = true →
        submits (t_queue t) = []) →
  (length (scheduleList c) ≤ rounds)%nat →
  queues (scheduleList (fst (processTransfers submits rounds 0 c [])))
  = queues (filter stays (scheduleList c)) ∧
  snd (processTransfers submits rounds 0 c [])
  = queues (filter finishes (scheduleList c)).
Proof.
  destruct c as [init l]. cbn [scheduleList]. intros Hquiet Hr.
  destruct (processTransfers_pass submits l Hquiet rounds init [] [] Hr)
    as (init' & l' & He & Hq).
  simpl in He. rewrite He. cbn [fst snd scheduleList]. auto.
Qed.

Lemma onIrq_retires_finished_transfers_witness :
  let c := mkController (Some 5%N)
             [mkTransaction 5%N (Some 6%N) [mkTdStatus false false] 0;
              mkTransaction 6%N (Some 7%N) [mkTdStatus true false] 0;
              mkTransaction 7%N None [mkTdStatus false true] 0] in
  let submits : Submits := fun _ => [] in
  (∀ t, t ∈ scheduleList c → finishes t = true →
        submits (t_queue t) = []) ∧
  (length (scheduleList c) ≤ 3)%nat ∧
  queues (scheduleList (fst (processTransfers submits 3 0 c [])))
  = queues (filter stays (scheduleList c)) ∧
  snd (processTransfers submits 3 0 c [])
  = queues (filter finishes (scheduleList c)).
Proof.
  intros c submits.
  assert (Hq : ∀ t, t ∈ scheduleList c → finishes t = true →
                    submits (t_queue t) = []) by reflexivity.
  assert (Hr : (length (scheduleList c) ≤ 3)%nat) by (simpl; lia).
  split; [exact Hq|]. split; [exact Hr|].
  exact (onIrq_retires_finished_transfers submits c 3 Hq Hr).
Defined.

Example onIrq_three_transfers :
  processTransfers (fun _ => []) 3 0
    (mkController (Some 5%N)
       [mkTransaction 5%N (Some 6%N) [mkTdStatus false false] 0;
        mkTransaction 6%N (Some 7%N) [mkTdStatus true false] 0;
        mkTransaction 7%N None [mkTdStatus false true] 0]) []
  = (mkController (Some 6%N)
       [mkTransaction 6%N None [mkTdStatus true false] 0], [5%N]).
Proof. reflexivity. Qed.

End UhciScheduleFacts.
